(** * Range-Doppler rendering utilities of pyapril/RDTools.py

    Shallow embedding of the four rendering functions of [RDTools.py]
    ([export_rd_matrix_img], [plot_rd_matrix], [plot_Doppler_slice],
    [plot_range_slice]).  NumPy float arithmetic is modelled on the real
    numbers extended with the IEEE special values [+inf], [-inf] and [nan]
    (rounding is not modelled); complex samples are pairs of reals or the
    value [nan+nanj] produced by [0/0].  Python exceptions are modelled by an
    error monad, printing by an output log, and the in-place update of the
    caller's array by returning the caller's array after the call. *)

From Stdlib Require Import Reals Lra Lia ZArith String List.
Import ListNotations.
Open Scope R_scope.

(** ** Extended floats *)

Inductive ext : Type :=
| Fin (r : R)
| PInf
| NInf
| NaN.

(** Python's [a < b] on floats: every comparison with [nan] is false. *)
Definition ext_lt (a b : ext) : bool :=
  match a, b with
  | Fin x, Fin y => if Rlt_dec x y then true else false
  | NInf, Fin _ | NInf, PInf | Fin _, PInf => true
  | _, _ => false
  end.

(** Python's [a >= b] on floats. *)
Definition ext_ge (a b : ext) : bool :=
  match a, b with
  | Fin x, Fin y => if Rle_dec y x then true else false
  | PInf, Fin _ | PInf, PInf | PInf, NInf | Fin _, NInf | NInf, NInf => true
  | _, _ => false
  end.

Definition ext_opp (a : ext) : ext :=
  match a with
  | Fin x => Fin (- x)
  | PInf => NInf
  | NInf => PInf
  | NaN => NaN
  end.

Definition ext_add (a b : ext) : ext :=
  match a, b with
  | Fin x, Fin y => Fin (x + y)
  | PInf, NInf | NInf, PInf => NaN
  | NaN, _ | _, NaN => NaN
  | PInf, _ | _, PInf => PInf
  | NInf, _ | _, NInf => NInf
  end.

Definition ext_sub (a b : ext) : ext := ext_add a (ext_opp b).

(** Multiplication by a finite constant [c]. *)
Definition ext_scale (c : R) (a : ext) : ext :=
  match a with
  | Fin x => Fin (c * x)
  | PInf => if Rlt_dec 0 c then PInf else if Rlt_dec c 0 then NInf else NaN
  | NInf => if Rlt_dec 0 c then NInf else if Rlt_dec c 0 then PInf else NaN
  | NaN => NaN
  end.

(** Division by a finite non-zero integer (a cell counter). *)
Definition ext_div_pos (a : ext) (n : R) : ext :=
  match a with
  | Fin x => Fin (x / n)
  | other => other
  end.

(** [np.log10]: [log10 0 = -inf], negative arguments give [nan]. *)
Definition log10 (a : ext) : ext :=
  match a with
  | Fin x =>
      if Rlt_dec 0 x then Fin (ln x / ln 10)
      else if Req_dec_T x 0 then NInf else NaN
  | PInf => PInf
  | NInf | NaN => NaN
  end.

(** [x ** 2] *)
Definition ext_sq (a : ext) : ext :=
  match a with
  | Fin x => Fin (x * x)
  | PInf | NInf => PInf
  | NaN => NaN
  end.

(** Binary [np.maximum]: [nan] propagates. *)
Definition ext_max (a b : ext) : ext :=
  match a, b with
  | NaN, _ | _, NaN => NaN
  | PInf, _ | _, PInf => PInf
  | NInf, x | x, NInf => x
  | Fin x, Fin y => Fin (Rmax x y)
  end.

(** ** Python results: exceptions and the output log *)

Inductive pyexc : Type :=
| IndexError
| ValueError
| ZeroDivisionError.

Inductive pyres (A : Type) : Type :=
| Ok (a : A)
| Err (e : pyexc).
Arguments Ok {A} a.
Arguments Err {A} e.

Definition bind {A B : Type} (r : pyres A) (f : A -> pyres B) : pyres B :=
  match r with
  | Ok a => f a
  | Err e => Err e
  end.

Notation "x <- r ;; k" := (bind r (fun x => k))
  (at level 61, r at next level, right associativity).

(** [np.max] over all the elements: raises [ValueError] on an empty array. *)
Definition np_max (l : list ext) : pyres ext :=
  match l with
  | [] => Err ValueError
  | x :: r => Ok (fold_left ext_max r x)
  end.

(** Python indexing of a sequence, with negative indices counted from the
    end and [IndexError] outside. *)
Definition py_index {A : Type} (l : list A) (i : Z) : pyres A :=
  let n := Z.of_nat (length l) in
  let j := if (i <? 0)%Z then (i + n)%Z else i in
  if ((0 <=? j)%Z && (j <? n)%Z)%bool then
    match nth_error l (Z.to_nat j) with
    | Some a => Ok a
    | None => Err IndexError
    end
  else Err IndexError.

(** [np.arange(a, b)] on integers. *)
Definition np_arange (a b : Z) : list Z :=
  map (fun k => (a + Z.of_nat k)%Z) (seq 0 (Z.to_nat (b - a))).

(** A loop whose body may raise. *)
Fixpoint for_each {S : Type} (l : list Z) (body : Z -> S -> pyres S) (s : S)
  : pyres S :=
  match l with
  | [] => Ok s
  | i :: r => s' <- body i s ;; for_each r body s'
  end.

(** ** Range-Doppler matrices *)

(** A complex sample: [re + im j], or [nan+nanj]. *)
Inductive cell : Type :=
| CFin (re im : R)
| CNaN.

(** Rows are Doppler bins, columns are range bins: [rd_matrix[d, r]]. *)
Definition matrix := list (list cell).
Definition dmatrix := list (list ext).

Definition nrows {A : Type} (m : list (list A)) : nat := length m.
Definition ncols {A : Type} (m : list (list A)) : nat :=
  match m with
  | [] => 0%nat
  | r :: _ => length r
  end.

(** [np.abs] of a complex sample. *)
Definition cabs (c : cell) : ext :=
  match c with
  | CFin x y => Fin (sqrt (x * x + y * y))
  | CNaN => NaN
  end.

(** Complex sample divided by a float; the divisor is a maximum
    magnitude, which is [0] only when every sample is [0], and [0/0] gives
    [nan+nanj]. *)
Definition cdiv (c : cell) (m : ext) : cell :=
  match c, m with
  | CFin x y, Fin d => if Req_dec_T d 0 then CNaN else CFin (x / d) (y / d)
  | _, _ => CNaN
  end.

(** [10 * np.log10(np.abs(x) ** 2)] *)
Definition db (c : cell) : ext := ext_scale 10 (log10 (ext_sq (cabs c))).

Definition to_db (m : matrix) : dmatrix := map (map db) m.

(** [rd_matrix[i, j]] *)
Definition index2 {A : Type} (m : list (list A)) (i j : Z) : pyres A :=
  row <- py_index m i ;; py_index row j.

(** [for x in l: y.append(f(x))] with a body that may raise. *)
Fixpoint map_m {A B : Type} (f : A -> pyres B) (l : list A) : pyres (list B) :=
  match l with
  | [] => Ok []
  | x :: r => y <- f x ;; ys <- map_m f r ;; Ok (y :: ys)
  end.

(** ** Dynamic range compression (shared by [export_rd_matrix_img] and
    [plot_rd_matrix], RDTools.py lines 90-112 and 223-245) *)

Definition window_length : Z := 5.
Definition window_width : Z := 5.

(** Inner loop [for wj in np.arange(-window_width, window_width + 1)] of the
    noise-floor estimation; the state is [(cell_counter, noise_floor)]. *)
Definition noise_inner (m : matrix) (doppler_cell_index range_cell_index : Z)
  (wi : Z) (s : Z * ext) : pyres (Z * ext) :=
  for_each (np_arange (- window_width) (window_width + 1))
    (fun wj st =>
       let '(cell_counter, noise_floor) := st in
       c <- index2 m (doppler_cell_index + wj) (range_cell_index + wi) ;;
       Ok ((cell_counter + 1)%Z, ext_add noise_floor (ext_sq (cabs c))))
    s.

(** Outer loop [for wi in np.arange(-window_length, window_length + 1)],
    started with [noise_floor = 0] and [cell_counter = 0]. *)
Definition noise_loop (m : matrix) (doppler_cell_index range_cell_index : Z)
  : pyres (Z * ext) :=
  for_each (np_arange (- window_length) (window_length + 1))
    (noise_inner m doppler_cell_index range_cell_index) (0%Z, Fin 0).

(** [if rd_matrix[i, j] < -dyn_range: rd_matrix[i, j] = -dyn_range] *)
Definition clamp_cell (dyn_range : ext) (v : ext) : ext :=
  if ext_lt v (ext_opp dyn_range) then ext_opp dyn_range else v.

Definition clamp (dyn_range : ext) (m : dmatrix) : dmatrix :=
  map (map (clamp_cell dyn_range)) m.

(** [rd_matrix -= np.max(rd_matrix)] *)
Definition shift (mx : ext) (m : dmatrix) : dmatrix :=
  map (map (fun v => ext_sub v mx)) m.

(** Lines 106-112: dB conversion into a fresh array, peak subtraction and
    floor clamp. *)
Definition normalize_db (m : matrix) (dyn_range : ext) : pyres dmatrix :=
  let dbm := to_db m in
  mx <- np_max (concat dbm) ;;
  Ok (clamp dyn_range (shift mx dbm)).

(** [rd_matrix /= np.max(np.abs(rd_matrix))], performed in place. *)
Definition scale_matrix (m : matrix) (mx : ext) : matrix :=
  map (map (fun c => cdiv c mx)) m.

(** The compression block.  Returns the caller's array after the block
    (it is updated in place by [/=] only) and either the compressed dB
    matrix with the effective dynamic range, or the raised exception. *)
Definition dyn_range_compression (doppler_cell_index range_cell_index : Z)
  (rd_matrix : matrix) (dyn_range : option R) : matrix * pyres (dmatrix * ext) :=
  match dyn_range with
  | Some d => (rd_matrix, out <- normalize_db rd_matrix (Fin d) ;; Ok (out, Fin d))
  | None =>
      match np_max (map cabs (concat rd_matrix)) with
      | Err e => (rd_matrix, Err e)
      | Ok mx =>
          let m' := scale_matrix rd_matrix mx in
          (m',
            st <- noise_loop m' doppler_cell_index range_cell_index ;;
            let '(cell_counter, noise_floor) := st in
            let noise_floor := ext_div_pos noise_floor (IZR cell_counter) in
            let dr := ext_scale (-10) (log10 noise_floor) in
            out <- normalize_db m' dr ;;
            Ok (out, dr))
      end
  end.

(** ** Figures *)

Inductive trace : Type :=
| Heatmap (x y : list R) (z : dmatrix)
| Scatter (x : list R) (y : list ext) (name : Z).

Definition figure := list trace.

(** Effect of one call: the caller's [rd_matrix] afterwards, the lines
    printed, and the returned value or the raised exception. *)
Record call (A : Type) : Type := mk_call {
  rd_after : matrix;
  stdout : list string;
  ret : pyres A
}.
Arguments mk_call {A} rd_after stdout ret.
Arguments rd_after {A} c.
Arguments stdout {A} c.
Arguments ret {A} c.

Definition c_light : R := 3 * 10 ^ 8.

(** [np.arange(n, dtype=float)] *)
Definition arange_f (n : nat) : list R := map INR (seq 0 n).

(** [np.linspace(a, b, n)] *)
Definition linspace (a b : R) (n : nat) : list R :=
  match n with
  | O => []
  | S O => [a]
  | _ => map (fun i => a + INR i * (b - a) / INR (n - 1)) (seq 0 n)
  end.

(** [np.argmin]: first index of the minimum, [ValueError] on an empty
    array. *)
Fixpoint argmin_aux (l : list R) (i best : nat) (bv : R) : nat :=
  match l with
  | [] => best
  | x :: r =>
      if Rlt_dec x bv then argmin_aux r (S i) i x else argmin_aux r (S i) best bv
  end.

Definition np_argmin (l : list R) : pyres nat :=
  match l with
  | [] => Err ValueError
  | x :: r => Ok (argmin_aux r 1 0 x)
  end.

(** ** [export_rd_matrix_img] (lines 7-153).  The value modelled is the
    array handed to [imshow]; the figure styling and the file write are not
    modelled. *)
Definition export_rd_matrix_img (rd_matrix : matrix) (dyn_range : option R)
  : call dmatrix :=
  let '(after, r) := dyn_range_compression 30 20 rd_matrix dyn_range in
  mk_call after [] (p <- r ;; Ok (fst p)).

(** ** [plot_rd_matrix] (lines 155-275) *)
Definition plot_rd_matrix (rd_matrix : matrix) (dyn_range : option R)
  (fs max_Doppler : option R) : call figure :=
  let '(after, r) := dyn_range_compression 10 20 rd_matrix dyn_range in
  mk_call after []
    (p <- r ;;
     let z := fst p in
     bistat_range_scale <-
       match fs with
       | None => Ok (arange_f (ncols z))
       | Some f =>
           if Req_dec_T f 0 then Err ZeroDivisionError
           else Ok (map (fun v => v * (c_light / f / 10 ^ 3)) (arange_f (ncols z)))
       end ;;
     let doppler_scale :=
       match max_Doppler with
       | None => arange_f (nrows z)
       | Some md => linspace (- md) md (nrows z)
       end in
     Ok [Heatmap bistat_range_scale doppler_scale z]).

(** ** Slice plots *)

(** A Python number passed as a bin index or a physical value. *)
Inductive pynum : Type :=
| PInt (z : Z)
| PFloat (r : R).

Definition pyval (v : pynum) : R :=
  match v with
  | PInt z => IZR z
  | PFloat r => r
  end.

(** ["{:d}".format(v)]: the [d] format code refuses floats.  The formatted
    integer stands for the text. *)
Definition format_d (v : pynum) : pyres Z :=
  match v with
  | PInt z => Ok z
  | PFloat _ => Err ValueError
  end.

(** Indexing a NumPy array with a Python number: floats are refused. *)
Definition py_index_num {A : Type} (l : list A) (v : pynum) : pyres A :=
  match v with
  | PInt z => py_index l z
  | PFloat _ => Err IndexError
  end.

Definition fig_or_new (fig : option figure) : figure :=
  match fig with
  | Some f => f
  | None => []
  end.

(** Lines 349-370 of [plot_Doppler_slice], once [bistat_range] is final. *)
Definition doppler_slice_tail (rd_matrix : matrix) (dbm : dmatrix)
  (bistat_range : pynum) (max_Doppler : option R) (fig : option figure)
  : call (option figure) :=
  if Rgt_dec (pyval bistat_range) (INR (ncols dbm) - 1) then
    mk_call rd_matrix ["ERROR: Bistatic range is out of range."%string] (Ok None)
  else
    let doppler_scale :=
      match max_Doppler with
      | None => arange_f (nrows dbm)
      | Some md => linspace (- md) md (nrows dbm)
      end in
    mk_call rd_matrix []
      (name <- format_d bistat_range ;;
       col <- map_m (fun row => py_index_num row bistat_range) dbm ;;
       Ok (Some (fig_or_new fig ++ [Scatter doppler_scale col name]))).

(** [plot_Doppler_slice] (lines 277-370). *)
Definition plot_Doppler_slice (rd_matrix : matrix) (bistat_range : pynum)
  (fs max_Doppler : option R) (fig : option figure) : call (option figure) :=
  let dbm := to_db rd_matrix in
  if Rlt_dec (pyval bistat_range) 0 then
    mk_call rd_matrix
      ["ERROR: Bistatic range should be a positive number"%string] (Ok None)
  else
    match fs with
    | None => doppler_slice_tail rd_matrix dbm bistat_range max_Doppler fig
    | Some f =>
        if Req_dec_T f 0 then mk_call rd_matrix [] (Err ZeroDivisionError) else
        let d := c_light / f in
        if Rgt_dec (pyval bistat_range) ((INR (ncols dbm) - 1) * d) then
          mk_call rd_matrix ["ERROR: Bistatic range is out of range."%string]
            (Ok None)
        else
          match np_argmin (map (fun j => Rabs (INR j * d - pyval bistat_range))
                             (seq 0 (ncols dbm))) with
          | Err e => mk_call rd_matrix [] (Err e)
          | Ok k =>
              doppler_slice_tail rd_matrix dbm (PInt (Z.of_nat k)) max_Doppler fig
          end
    end.

(** The out-of-range report of [plot_range_slice]: the message is formatted
    with ["{:d}"] before it is printed. *)
Definition range_out_of_range (rd_matrix : matrix) (Doppler_freq : pynum)
  : call (option figure) :=
  match format_d Doppler_freq with
  | Ok _ =>
      mk_call rd_matrix ["ERROR: Doppler frequency is out of range."%string]
        (Ok None)
  | Err e => mk_call rd_matrix [] (Err e)
  end.

(** Lines 435-455 of [plot_range_slice], once [Doppler_freq] is final.
    The value is the figure object after the call when the slice is drawn
    ([Some]), and [None] for an early [return None]. *)
Definition range_slice_tail (rd_matrix : matrix) (dbm : dmatrix)
  (Doppler_freq : pynum) (fs : option R) (fig : option figure)
  : call (option figure) :=
  if Rgt_dec (pyval Doppler_freq) (INR (nrows dbm) - 1) then
    range_out_of_range rd_matrix Doppler_freq
  else if Rlt_dec (pyval Doppler_freq) 0 then
    range_out_of_range rd_matrix Doppler_freq
  else
    mk_call rd_matrix []
      (name <- format_d Doppler_freq ;;
       bistat_range_scale <-
         match fs with
         | None => Ok (arange_f (ncols dbm))
         | Some f =>
             if Req_dec_T f 0 then Err ZeroDivisionError
             else Ok (map (fun v => v * (c_light / f / 10 ^ 3)) (arange_f (ncols dbm)))
         end ;;
       row <- py_index_num dbm Doppler_freq ;;
       Ok (Some (fig_or_new fig ++ [Scatter bistat_range_scale row name]))).

(** The body of [plot_range_slice] (lines 417-455), with the figure object
    after the call as value when the slice is drawn. *)
Definition range_slice_draw (rd_matrix : matrix) (Doppler_freq : pynum)
  (fs max_Doppler : option R) (fig : option figure) : call (option figure) :=
  let dbm := to_db rd_matrix in
  match max_Doppler with
  | None => range_slice_tail rd_matrix dbm Doppler_freq fs fig
  | Some md =>
      if Rgt_dec (Rabs (pyval Doppler_freq)) md then
        mk_call rd_matrix ["ERROR: Doppler frequency is out of range."%string]
          (Ok None)
      else
        match np_argmin (map (fun s => Rabs (s - pyval Doppler_freq))
                           (linspace (- md) md (nrows dbm))) with
        | Err e => mk_call rd_matrix [] (Err e)
        | Ok k => range_slice_tail rd_matrix dbm (PInt (Z.of_nat k)) fs fig
        end
  end.

(** [plot_range_slice] (lines 372-455).  The function has no [return]
    statement after drawing: it returns [None] on every path that does not
    raise, and the drawn trace is only visible in the figure object
    ([range_slice_draw]). *)
Definition plot_range_slice (rd_matrix : matrix) (Doppler_freq : pynum)
  (fs max_Doppler : option R) (fig : option figure) : call (option figure) :=
  let c := range_slice_draw rd_matrix Doppler_freq fs max_Doppler fig in
  mk_call (rd_after c) (stdout c) (bind (ret c) (fun _ => Ok None)).

(** ** Predicates on matrices used by the statements *)

(** Every sample is a finite complex number. *)
Definition finite_matrix (m : matrix) : Prop :=
  Forall (fun c => exists x y, c = CFin x y) (concat m).

(** Some sample is non-zero. *)
Definition has_signal (m : matrix) : Prop :=
  exists x y, In (CFin x y) (concat m) /\ 0 < x * x + y * y.

(** A value that is [-inf] or a float at most [b]. *)
Definition below (b : R) (v : ext) : Prop :=
  v = NInf \/ exists r, v = Fin r /\ r <= b.

(** An effective dynamic range that is [+inf] or a non-negative float. *)
Definition dyn_range_ok (dr : ext) : Prop :=
  dr = PInf \/ exists d, dr = Fin d /\ 0 <= d.

Definition is_fin (v : ext) : bool :=
  match v with
  | Fin _ => true
  | _ => false
  end.

(** ** The noise floor in the spec's words

    Written from the spec, to be compared with [noise_loop]: the mean of
    [|x / M|^2] over the [(2*5+1) x (2*5+1)] window centred at
    [(doppler_cell_index, range_cell_index)]. *)

Definition window_offsets : list Z := [-5; -4; -3; -2; -1; 0; 1; 2; 3; 4; 5]%Z.

Definition sample_at (m : matrix) (i j : Z) : cell :=
  nth (Z.to_nat j) (nth (Z.to_nat i) m []) CNaN.

Definition sq_mag (c : cell) : R :=
  match c with
  | CFin x y => x * x + y * y
  | CNaN => 0
  end.

Definition spec_noise_floor (m : matrix) (M : R) (dc rc : Z) : R :=
  fold_right Rplus 0
    (map (fun wi =>
            fold_right Rplus 0
              (map (fun wj => sq_mag (sample_at m (dc + wj) (rc + wi)) / (M * M))
                 window_offsets))
       window_offsets)
  / (INR (length window_offsets) * INR (length window_offsets)).

(** ** Test matrices *)

Definition ones (rows cols : nat) : matrix := repeat (repeat (CFin 1 0) cols) rows.

(** [k * rd_matrix] for a real gain [k]. *)
Definition cmul (k : R) (c : cell) : cell :=
  match c with
  | CFin x y => CFin (k * x) (k * y)
  | CNaN => CNaN
  end.

Definition gain (k : R) (m : matrix) : matrix := map (map (cmul k)) m.

(** Eleven all-zero rows of twelve samples above one row of ones. *)
Definition quiet_window : matrix :=
  repeat (repeat (CFin 0 0) 12) 11 ++ [repeat (CFin 1 0) 12].

(** * Basic facts *)

Ltac split_ifs :=
  repeat match goal with
  | |- context [Rlt_dec ?a ?b] => destruct (Rlt_dec a b); cbv beta iota
  | |- context [Rle_dec ?a ?b] => destruct (Rle_dec a b); cbv beta iota
  | |- context [Rgt_dec ?a ?b] => destruct (Rgt_dec a b); cbv beta iota
  | |- context [Req_dec_T ?a ?b] => destruct (Req_dec_T a b); cbv beta iota
  end.

Lemma ln10_pos : 0 < ln 10.
Proof.
  rewrite <- ln_1. apply ln_increasing; lra.
Qed.

Lemma sq_cabs (x y : R) :
  ext_sq (cabs (CFin x y)) = Fin (x * x + y * y).
Proof.
  simpl. f_equal. apply sqrt_sqrt. nra.
Qed.

Lemma log10_pos (x : R) : 0 < x -> log10 (Fin x) = Fin (ln x / ln 10).
Proof.
  intros H. simpl. destruct (Rlt_dec 0 x); [reflexivity | lra].
Qed.

Lemma log10_zero : log10 (Fin 0) = NInf.
Proof.
  simpl. destruct (Rlt_dec 0 0); [lra |].
  destruct (Req_dec_T 0 0); [reflexivity | congruence].
Qed.

Lemma db_pos (x y : R) :
  0 < x * x + y * y -> db (CFin x y) = Fin (10 * (ln (x * x + y * y) / ln 10)).
Proof.
  intros H. unfold db. rewrite sq_cabs, log10_pos by exact H. reflexivity.
Qed.

Lemma db_zero (x y : R) : x * x + y * y = 0 -> db (CFin x y) = NInf.
Proof.
  intros H. unfold db. rewrite sq_cabs, H, log10_zero. simpl.
  destruct (Rlt_dec 0 10); [reflexivity | lra].
Qed.

Lemma db_one : db (CFin 1 0) = Fin 0.
Proof.
  rewrite db_pos by lra.
  replace (1 * 1 + 0 * 0) with 1 by ring. rewrite ln_1. f_equal. field.
  apply Rgt_not_eq, ln10_pos.
Qed.


Lemma clamp_cell_idem (dr v : ext) :
  clamp_cell dr (clamp_cell dr v) = clamp_cell dr v.
Proof.
  unfold clamp_cell.
  destruct (ext_lt v (ext_opp dr)) eqn:E.
  - destruct dr; simpl; try reflexivity.
    destruct (Rlt_dec (- r) (- r)); [lra | reflexivity].
  - rewrite E. reflexivity.
Qed.

Lemma argmin_aux_keep (l : list R) (i best : nat) (bv : R) :
  Forall (fun x => bv <= x) l -> argmin_aux l i best bv = best.
Proof.
  revert i. induction l as [| x r IH]; intros i H; [reflexivity |].
  inversion H; subst. cbn. split_ifs; [lra |]. apply IH; assumption.
Qed.

Lemma argmin_aux_zero (pre suf : list R) (i best : nat) (bv : R) :
  0 < bv -> Forall (fun x => 0 < x) pre -> Forall (fun x => 0 <= x) suf ->
  argmin_aux (pre ++ 0 :: suf) i best bv = (i + length pre)%nat.
Proof.
  revert i best bv. induction pre as [| x r IH]; intros i best bv Hbv Hpre Hsuf.
  - cbn. split_ifs; [| lra]. rewrite Nat.add_0_r. apply argmin_aux_keep; assumption.
  - inversion Hpre; subst. cbn.
    split_ifs; rewrite IH by (assumption || lra); cbn; lia.
Qed.

(** [np.argmin] of a list whose only zero is at position [length pre]
    and which is otherwise positive. *)
Lemma np_argmin_zero (pre suf : list R) :
  Forall (fun x => 0 < x) pre -> Forall (fun x => 0 < x) suf ->
  np_argmin (pre ++ 0 :: suf) = Ok (length pre).
Proof.
  intros Hpre Hsuf. destruct pre as [| x r]; cbn.
  - f_equal. apply argmin_aux_keep.
    eapply Forall_impl; [| exact Hsuf]. cbn. intros; lra.
  - inversion Hpre; subst. f_equal. rewrite argmin_aux_zero; auto.
    eapply Forall_impl; [| exact Hsuf]. cbn. intros; lra.
Qed.

Lemma ncols_to_db (m : matrix) : ncols (to_db m) = ncols m.
Proof. destruct m; cbn; [reflexivity | apply length_map]. Qed.

Lemma c_light_pos : 0 < c_light.
Proof. unfold c_light. apply Rmult_lt_0_compat; [lra | apply pow_lt; lra]. Qed.

Lemma seq_split (k n : nat) :
  (k < n)%nat -> seq 0 n = seq 0 k ++ k :: seq (S k) (n - S k).
Proof.
  intros H. replace n with (k + S (n - S k))%nat at 1 by lia.
  rewrite seq_app. reflexivity.
Qed.

(** ** [np.max] *)

Lemma ext_max_below (b : R) (u v : ext) :
  below b u -> below b v -> below b (ext_max u v).
Proof.
  intros [-> | [x [-> Hx]]] [-> | [y [-> Hy]]]; cbn; unfold below; auto.
  - right. eauto.
  - right. eauto.
  - right. exists (Rmax x y). split; [reflexivity |]. apply Rmax_lub; assumption.
Qed.

Lemma ext_max_top_l (b : R) (v : ext) : below b v -> ext_max (Fin b) v = Fin b.
Proof.
  intros [-> | [y [-> Hy]]]; cbn; [reflexivity |]. f_equal. apply Rmax_left. lra.
Qed.

Lemma ext_max_top_r (b : R) (u : ext) : below b u -> ext_max u (Fin b) = Fin b.
Proof.
  intros [-> | [y [-> Hy]]]; cbn; [reflexivity |]. f_equal. apply Rmax_right. lra.
Qed.

Lemma fold_max_attained (b : R) (l : list ext) (acc : ext) :
  below b acc -> Forall (below b) l -> In (Fin b) (acc :: l) ->
  fold_left ext_max l acc = Fin b.
Proof.
  revert acc. induction l as [| x r IH]; intros acc Hacc Hl Hin.
  - destruct Hin as [-> | []]. reflexivity.
  - inversion Hl as [| ? ? Hx Hr]; subst. cbn. apply IH; auto.
    + apply ext_max_below; assumption.
    + destruct Hin as [-> | [-> | Hin]].
      * left. apply ext_max_top_l. assumption.
      * left. apply ext_max_top_r. assumption.
      * right. assumption.
Qed.

Lemma np_max_attained (b : R) (l : list ext) :
  Forall (below b) l -> In (Fin b) l -> np_max l = Ok (Fin b).
Proof.
  intros Hl Hin. destruct l as [| x r]; [destruct Hin |].
  inversion Hl; subst. cbn. f_equal. apply fold_max_attained; assumption.
Qed.

Lemma below_mono (a b : R) (v : ext) : a <= b -> below a v -> below b v.
Proof.
  intros Hab [-> | [r [-> Hr]]]; [left; reflexivity | right; exists r; split; [reflexivity | lra]].
Qed.

(** A finite list of floats and [-inf] with some float has a largest
    element. *)
Lemma max_exists (l : list ext) :
  Forall (fun v => v = NInf \/ exists r, v = Fin r) l ->
  (exists r, In (Fin r) l) ->
  exists b, Forall (below b) l /\ In (Fin b) l.
Proof.
  induction l as [| x r IH]; intros Hl [a Ha]; [destruct Ha |].
  inversion Hl as [| ? ? Hx Hr]; subst.
  destruct (existsb is_fin r) eqn:E.
  - apply existsb_exists in E as [v [Hv Hfin]].
    destruct v as [c | | |]; try discriminate.
    destruct (IH Hr (ex_intro _ c Hv)) as [b [Hb Hinb]].
    destruct Hx as [-> | [x' ->]].
    + exists b. split; [constructor; [left; reflexivity | exact Hb] | right; exact Hinb].
    + exists (Rmax x' b). split.
      * constructor.
        -- right. exists x'. split; [reflexivity | apply Rmax_l].
        -- eapply Forall_impl; [| exact Hb]. intros w. apply below_mono, Rmax_r.
      * unfold Rmax. destruct (Rle_dec x' b); [right; exact Hinb | left; reflexivity].
  - assert (Hn : forall v, In v r -> v = NInf).
    { intros v Hv. rewrite Forall_forall in Hr. destruct (Hr v Hv) as [-> | [c ->]];
        [reflexivity |].
      assert (existsb is_fin r = true) by (apply existsb_exists; exists (Fin c); auto).
      congruence. }
    destruct Ha as [-> | Ha]; [| discriminate (Hn _ Ha)].
    exists a. split; [| left; reflexivity].
    constructor; [right; exists a; split; [reflexivity | lra] |].
    apply Forall_forall. intros v Hv. left. apply Hn. exact Hv.
Qed.

(** ** The dB transform, peak subtraction and clamp *)

Lemma concat_map_map {A B : Type} (f : A -> B) (m : list (list A)) :
  concat (map (map f) m) = map f (concat m).
Proof. symmetry. apply concat_map. Qed.

Lemma db_fin_or_ninf (x y : R) :
  db (CFin x y) = NInf \/ exists r, db (CFin x y) = Fin r.
Proof.
  assert (H : 0 <= x * x + y * y) by nra.
  destruct (Rle_lt_or_eq_dec _ _ H) as [Hp | Hz].
  - right. eexists. apply db_pos. exact Hp.
  - left. apply db_zero. symmetry. exact Hz.
Qed.

Lemma shift_below (b : R) (v : ext) :
  below b v -> below 0 (ext_sub v (Fin b)).
Proof.
  intros [-> | [r [-> Hr]]]; cbn; [left; reflexivity |].
  right. exists (r + - b). split; [reflexivity | lra].
Qed.

Lemma clamp_below0 (dr : ext) (v : ext) :
  dyn_range_ok dr -> below 0 v -> below 0 (clamp_cell dr v).
Proof.
  unfold clamp_cell. intros [-> | [d [-> Hd]]] Hv.
  - destruct Hv as [-> | [r [-> Hr]]]; cbn; [left | right; eauto]; reflexivity.
  - destruct Hv as [-> | [r [-> Hr]]]; cbn; split_ifs;
      right; eexists; (split; [reflexivity | lra]).
Qed.

Lemma clamp_zero (dr : ext) : dyn_range_ok dr -> clamp_cell dr (Fin 0) = Fin 0.
Proof.
  unfold clamp_cell. intros [-> | [d [-> Hd]]]; cbn; [reflexivity |].
  split_ifs; [lra | reflexivity].
Qed.

Lemma clamp_floor (dr : ext) (v : ext) :
  (dr = PInf \/ exists d, dr = Fin d) -> (v = NInf \/ exists r, v = Fin r) ->
  ext_ge (clamp_cell dr v) (ext_opp dr) = true.
Proof.
  unfold clamp_cell. intros [-> | [d ->]] [-> | [r ->]]; cbn; try reflexivity.
  - split_ifs; try reflexivity; lra.
  - split_ifs; cbn; split_ifs; try reflexivity; lra.
Qed.

(** The dB transform of a finite matrix with some non-zero sample has a
    finite peak [b], and the normalized matrix is the clamp of the matrix
    shifted by [b]. *)
Lemma normalize_db_peak (m : matrix) (dr : ext) :
  finite_matrix m -> has_signal m ->
  exists b, Forall (below b) (concat (to_db m)) /\ In (Fin b) (concat (to_db m)) /\
    normalize_db m dr = Ok (clamp dr (shift (Fin b) (to_db m))).
Proof.
  intros Hfin [x [y [Hin Hxy]]].
  unfold to_db. rewrite concat_map_map.
  destruct (max_exists (map db (concat m))) as [b [Hb Hbin]].
  - apply Forall_forall. intros v Hv. apply in_map_iff in Hv as [c [<- Hc]].
    unfold finite_matrix in Hfin. rewrite Forall_forall in Hfin.
    destruct (Hfin c Hc) as [x' [y' ->]]. apply db_fin_or_ninf.
  - exists (10 * (ln (x * x + y * y) / ln 10)). apply in_map_iff.
    exists (CFin x y). split; [apply db_pos; exact Hxy | exact Hin].
  - exists b. split; [exact Hb | split; [exact Hbin |]].
    unfold normalize_db, to_db. rewrite concat_map_map.
    rewrite (np_max_attained b _ Hb Hbin). reflexivity.
Qed.

Lemma concat_clamp_shift (dr mx : ext) (dbm : dmatrix) :
  concat (clamp dr (shift mx dbm))
  = map (fun v => clamp_cell dr (ext_sub v mx)) (concat dbm).
Proof.
  unfold clamp, shift. rewrite !concat_map_map, map_map. reflexivity.
Qed.

(** The normalized matrix has its peak at exactly 0 dB. *)
Lemma normalize_db_max_zero (m : matrix) (dr : ext) :
  finite_matrix m -> has_signal m -> dyn_range_ok dr ->
  exists out, normalize_db m dr = Ok out /\ np_max (concat out) = Ok (Fin 0).
Proof.
  intros Hfin Hsig Hdr.
  destruct (normalize_db_peak m dr Hfin Hsig) as [b [Hb [Hbin Heq]]].
  exists (clamp dr (shift (Fin b) (to_db m))). split; [exact Heq |].
  apply np_max_attained; rewrite concat_clamp_shift.
  - apply Forall_forall. intros v Hv. apply in_map_iff in Hv as [w [<- Hw]].
    apply clamp_below0; [exact Hdr |]. apply shift_below.
    rewrite Forall_forall in Hb. apply Hb, Hw.
  - apply in_map_iff. exists (Fin b). split; [| exact Hbin].
    cbn. rewrite Rplus_opp_r. apply clamp_zero, Hdr.
Qed.

(** Every normalized cell lies at or above [-dyn_range]. *)
Lemma normalize_db_floor (m : matrix) (dr : ext) :
  finite_matrix m -> has_signal m -> (dr = PInf \/ exists d, dr = Fin d) ->
  exists out, normalize_db m dr = Ok out /\
    map (@length _) out = map (@length _) m /\
    Forall (fun v => ext_ge v (ext_opp dr) = true) (concat out).
Proof.
  intros Hfin Hsig Hdr.
  destruct (normalize_db_peak m dr Hfin Hsig) as [b [Hb [Hbin Heq]]].
  exists (clamp dr (shift (Fin b) (to_db m))). split; [exact Heq | split].
  - unfold clamp, shift, to_db. rewrite !map_map. apply map_ext. intros row.
    rewrite !length_map. reflexivity.
  - rewrite concat_clamp_shift. apply Forall_forall. intros v Hv.
    apply in_map_iff in Hv as [w [<- Hw]]. apply clamp_floor; [exact Hdr |].
    rewrite Forall_forall in Hb. destruct (Hb w Hw) as [-> | [r [-> _]]]; cbn.
    + left. reflexivity.
    + right. eexists. reflexivity.
Qed.

(** ** The automatic estimation branch *)

Lemma concat_scale (m : matrix) (mx : ext) :
  concat (scale_matrix m mx) = map (fun c => cdiv c mx) (concat m).
Proof. unfold scale_matrix. apply concat_map_map. Qed.

(** The largest magnitude [M] of a finite matrix with a non-zero sample. *)
Lemma max_magnitude (m : matrix) :
  finite_matrix m -> has_signal m ->
  exists M, 0 < M /\ np_max (map cabs (concat m)) = Ok (Fin M) /\
    Forall (below M) (map cabs (concat m)) /\ In (Fin M) (map cabs (concat m)).
Proof.
  intros Hfin [x [y [Hin Hxy]]].
  destruct (max_exists (map cabs (concat m))) as [M [HM HMin]].
  - apply Forall_forall. intros v Hv. apply in_map_iff in Hv as [c [<- Hc]].
    unfold finite_matrix in Hfin. rewrite Forall_forall in Hfin.
    destruct (Hfin c Hc) as [x' [y' ->]]. right. eexists. reflexivity.
  - eexists. apply in_map_iff. exists (CFin x y). split; [reflexivity | exact Hin].
  - exists M. split; [| split; [apply np_max_attained; assumption | auto]].
    rewrite Forall_forall in HM.
    assert (Hc : In (cabs (CFin x y)) (map cabs (concat m))) by (apply in_map; exact Hin).
    destruct (HM _ Hc) as [E | [r [E Hr]]]; [discriminate |].
    cbn in E. injection E as <-. pose proof (sqrt_lt_R0 _ Hxy). lra.
Qed.

(** Samples whose squared magnitude is at most 1. *)
Definition unit_bounded (m : matrix) : Prop :=
  Forall (fun c => exists x y, c = CFin x y /\ x * x + y * y <= 1) (concat m).

Lemma scaled_sq (x y M : R) :
  0 < M -> (x / M) * (x / M) + (y / M) * (y / M) = (x * x + y * y) / (M * M).
Proof. intros H. field. lra. Qed.

Lemma cdiv_pos (x y M : R) : 0 < M -> cdiv (CFin x y) (Fin M) = CFin (x / M) (y / M).
Proof. intros H. cbn. split_ifs; [lra | reflexivity]. Qed.

Lemma sq_le_of_sqrt_le (s M : R) : 0 <= s -> sqrt s <= M -> s <= M * M.
Proof.
  intros Hs H. rewrite <- (sqrt_sqrt s Hs). pose proof (sqrt_pos s).
  apply Rmult_le_compat; assumption.
Qed.

Lemma scaled_unit_bounded (m : matrix) (M : R) :
  0 < M -> finite_matrix m -> Forall (below M) (map cabs (concat m)) ->
  unit_bounded (scale_matrix m (Fin M)).
Proof.
  intros HM Hfin Hb. unfold unit_bounded. rewrite concat_scale.
  apply Forall_forall. intros c Hc. apply in_map_iff in Hc as [c0 [<- Hc0]].
  unfold finite_matrix in Hfin. rewrite Forall_forall in Hfin.
  destruct (Hfin c0 Hc0) as [x [y ->]]. rewrite cdiv_pos by exact HM.
  exists (x / M), (y / M). split; [reflexivity |].
  rewrite Forall_forall in Hb.
  destruct (Hb (cabs (CFin x y)) (in_map _ _ _ Hc0)) as [E | [r [E Hr]]];
    [discriminate |].
  cbn in E. injection E as <-.
  assert (Hle : x * x + y * y <= M * M) by (apply sq_le_of_sqrt_le; [nra | exact Hr]).
  rewrite scaled_sq by exact HM.
  apply (Rmult_le_reg_r (M * M)); [nra |].
  unfold Rdiv. rewrite Rmult_assoc, Rinv_l by nra. lra.
Qed.

Lemma scaled_finite (m : matrix) (M : R) :
  0 < M -> finite_matrix m -> finite_matrix (scale_matrix m (Fin M)).
Proof.
  intros HM Hfin. unfold finite_matrix in *. rewrite concat_scale.
  apply Forall_forall. intros c Hc. apply in_map_iff in Hc as [c0 [<- Hc0]].
  rewrite Forall_forall in Hfin. destruct (Hfin c0 Hc0) as [x [y ->]].
  rewrite cdiv_pos by exact HM. eauto.
Qed.

Lemma scaled_signal (m : matrix) (M : R) :
  0 < M -> has_signal m -> has_signal (scale_matrix m (Fin M)).
Proof.
  intros HM [x [y [Hin Hxy]]]. exists (x / M), (y / M). split.
  - rewrite concat_scale. apply in_map_iff. exists (CFin x y).
    split; [apply cdiv_pos, HM | exact Hin].
  - rewrite scaled_sq by exact HM. apply Rdiv_lt_0_compat; nra.
Qed.

Lemma for_each_inv {S : Type} (P : S -> Prop) (l : list Z)
  (body : Z -> S -> pyres S) (s s' : S) :
  P s -> (forall i x y, P x -> body i x = Ok y -> P y) ->
  for_each l body s = Ok s' -> P s'.
Proof.
  revert s. induction l as [| i r IH]; intros s Hs Hbody E; cbn in E.
  - injection E as <-. exact Hs.
  - destruct (body i s) as [y |] eqn:Eb; [| discriminate].
    apply (IH y); [apply (Hbody i s y Hs Eb) | exact Hbody | exact E].
Qed.

Lemma py_index_in {A : Type} (l : list A) (i : Z) (a : A) :
  py_index l i = Ok a -> In a l.
Proof.
  unfold py_index. destruct (_ && _)%bool; [| discriminate].
  destruct (nth_error l _) eqn:E; [| discriminate].
  intros H. injection H as <-. eapply nth_error_In. exact E.
Qed.

Lemma index2_in {A : Type} (m : list (list A)) (i j : Z) (a : A) :
  index2 m i j = Ok a -> In a (concat m).
Proof.
  unfold index2. destruct (py_index m i) as [row |] eqn:E; [| discriminate].
  cbn. intros H. apply in_concat. exists row.
  split; [eapply py_index_in; exact E | eapply py_index_in; exact H].
Qed.

(** The noise-floor accumulator stays a float between 0 and the counter. *)
Definition noise_state_ok (st : Z * ext) : Prop :=
  exists s, snd st = Fin s /\ 0 <= s <= IZR (fst st).

Lemma noise_loop_bounded (m : matrix) (dc rc : Z) (st : Z * ext) :
  unit_bounded m -> noise_loop m dc rc = Ok st -> noise_state_ok st.
Proof.
  intros Hm. unfold noise_loop. apply for_each_inv.
  - exists 0. cbn. split; [reflexivity | lra].
  - intros wi x y Hx. unfold noise_inner. apply for_each_inv; [exact Hx |].
    intros wj [c nf] y' [s [Es Hs]]. cbn in Es. subst nf.
    destruct (index2 m _ _) as [c0 |] eqn:E; [| discriminate].
    cbn. intros H. injection H as <-.
    apply index2_in in E. unfold unit_bounded in Hm. rewrite Forall_forall in Hm.
    destruct (Hm c0 E) as [x0 [y0 [-> Hle]]].
    rewrite sq_cabs. exists (s + (x0 * x0 + y0 * y0)). cbn.
    rewrite plus_IZR. cbn in Hs. split; [reflexivity |]. split; nra.
Qed.

Lemma log10_unit (q : R) :
  0 <= q <= 1 -> dyn_range_ok (ext_scale (-10) (log10 (Fin q))).
Proof.
  intros Hq. destruct (Rle_lt_or_eq_dec 0 q (proj1 Hq)) as [Hp | <-].
  - rewrite log10_pos by exact Hp. right. eexists. split; [reflexivity |].
    assert (Hl : ln q <= 0).
    { destruct (Rle_lt_or_eq_dec q 1 (proj2 Hq)) as [Hlt | ->].
      - rewrite <- ln_1. left. apply ln_increasing; assumption.
      - rewrite ln_1. lra. }
    pose proof (Rinv_0_lt_compat _ ln10_pos). unfold Rdiv. nra.
  - rewrite log10_zero. left. cbn. split_ifs; try lra. reflexivity.
Qed.

Lemma estimated_dyn_range_ok (st : Z * ext) :
  noise_state_ok st ->
  dyn_range_ok (ext_scale (-10) (log10 (ext_div_pos (snd st) (IZR (fst st))))).
Proof.
  intros [s [-> Hs]]. cbn [ext_div_pos]. apply log10_unit.
  destruct (Req_dec_T (IZR (fst st)) 0) as [Hz | Hnz].
  - rewrite Hz. replace s with 0 by lra. unfold Rdiv. rewrite Rmult_0_l. lra.
  - split.
    + unfold Rdiv. apply Rmult_le_pos; [lra |].
      left. apply Rinv_0_lt_compat. lra.
    + apply (Rmult_le_reg_r (IZR (fst st))); [lra |].
      unfold Rdiv. rewrite Rmult_assoc, Rinv_l by exact Hnz. lra.
Qed.

(** ** The noise-floor loop *)

Lemma for_each_sum (l : list Z) (k : Z) (f : Z -> R)
  (body : Z -> Z * ext -> pyres (Z * ext)) (c : Z) (s : R) :
  (forall i c s, In i l -> body i (c, Fin s) = Ok ((c + k)%Z, Fin (s + f i))) ->
  for_each l body (c, Fin s)
  = Ok ((c + k * Z.of_nat (length l))%Z, Fin (s + fold_right Rplus 0 (map f l))).
Proof.
  revert c s. induction l as [| i r IH]; intros c s Hb; cbn.
  - f_equal. f_equal; [lia | f_equal; ring].
  - rewrite Hb by (left; reflexivity). cbn.
    rewrite IH by (intros; apply Hb; right; assumption).
    f_equal. f_equal; [lia | f_equal; ring].
Qed.

Lemma window_offsets_bounds (w : Z) : In w window_offsets -> (-5 <= w <= 5)%Z.
Proof.
  cbn. intros H. repeat (destruct H as [<- | H]; [lia |]). destruct H.
Qed.

Lemma np_arange_window :
  np_arange (- window_width) (window_width + 1) = window_offsets /\
  np_arange (- window_length) (window_length + 1) = window_offsets.
Proof. split; reflexivity. Qed.

Lemma py_index_nth {A : Type} (l : list A) (i : Z) (d : A) :
  (0 <= i < Z.of_nat (length l))%Z -> py_index l i = Ok (nth (Z.to_nat i) l d).
Proof.
  intros H. unfold py_index.
  destruct (Z.ltb_spec i 0) as [Hn | _]; [lia |].
  destruct (Z.leb_spec 0 i) as [_ | Hn]; [| lia].
  destruct (Z.ltb_spec i (Z.of_nat (length l))) as [_ | Hn]; [| lia].
  cbn. rewrite (nth_error_nth' l d) by lia. reflexivity.
Qed.

Lemma index2_scale (m : matrix) (M : R) (n : nat) (i j : Z) :
  Forall (fun row => length row = n) m ->
  (0 <= i < Z.of_nat (length m))%Z -> (0 <= j < Z.of_nat n)%Z ->
  index2 (scale_matrix m (Fin M)) i j = Ok (cdiv (sample_at m i j) (Fin M)).
Proof.
  intros Hrows Hi Hj. unfold index2, scale_matrix.
  rewrite (py_index_nth _ i (map (fun c => cdiv c (Fin M)) [])) by
    (rewrite length_map; exact Hi).
  rewrite (map_nth (map (fun c => cdiv c (Fin M)))). cbn.
  assert (Hlen : length (nth (Z.to_nat i) m []) = n).
  { rewrite Forall_forall in Hrows. apply Hrows, nth_In. lia. }
  rewrite (py_index_nth _ j ((fun c => cdiv c (Fin M)) CNaN))
    by (rewrite length_map; lia).
  rewrite (map_nth (fun c => cdiv c (Fin M)) _ CNaN). reflexivity.
Qed.

Lemma sample_at_in (m : matrix) (n : nat) (i j : Z) :
  Forall (fun row => length row = n) m ->
  (0 <= i < Z.of_nat (length m))%Z -> (0 <= j < Z.of_nat n)%Z ->
  In (sample_at m i j) (concat m).
Proof.
  intros Hrows Hi Hj. unfold sample_at. apply in_concat.
  exists (nth (Z.to_nat i) m []). split; [apply nth_In; lia |].
  apply nth_In. rewrite Forall_forall in Hrows. rewrite Hrows by (apply nth_In; lia).
  lia.
Qed.

Lemma noise_term (m : matrix) (M : R) (n : nat) (i j : Z) :
  0 < M -> finite_matrix m -> Forall (fun row => length row = n) m ->
  (0 <= i < Z.of_nat (length m))%Z -> (0 <= j < Z.of_nat n)%Z ->
  exists c, index2 (scale_matrix m (Fin M)) i j = Ok c /\
    ext_sq (cabs c) = Fin (sq_mag (sample_at m i j) / (M * M)).
Proof.
  intros HM Hfin Hrows Hi Hj.
  exists (cdiv (sample_at m i j) (Fin M)). split; [apply index2_scale with n; assumption |].
  unfold finite_matrix in Hfin. rewrite Forall_forall in Hfin.
  destruct (Hfin _ (sample_at_in m n i j Hrows Hi Hj)) as [x [y E]].
  rewrite E, cdiv_pos, sq_cabs by exact HM. cbn [sq_mag].
  rewrite scaled_sq by exact HM. reflexivity.
Qed.

(** With the window inside the matrix, the loop visits the 121 window
    cells of the scaled matrix and sums their squared magnitudes. *)
Lemma noise_loop_window (m : matrix) (M : R) (n : nat) (dc rc : Z) :
  0 < M -> finite_matrix m -> Forall (fun row => length row = n) m ->
  (5 <= dc)%Z -> (dc + 5 < Z.of_nat (length m))%Z ->
  (5 <= rc)%Z -> (rc + 5 < Z.of_nat n)%Z ->
  noise_loop (scale_matrix m (Fin M)) dc rc
  = Ok (121%Z, Fin (fold_right Rplus 0
         (map (fun wi =>
                 fold_right Rplus 0
                   (map (fun wj => sq_mag (sample_at m (dc + wj) (rc + wi)) / (M * M))
                      window_offsets))
            window_offsets))).
Proof.
  intros HM Hfin Hrows Hd1 Hd2 Hr1 Hr2.
  unfold noise_loop. destruct np_arange_window as [Ew El]. rewrite El.
  rewrite (for_each_sum window_offsets 11 (fun wi =>
    fold_right Rplus 0
      (map (fun wj => sq_mag (sample_at m (dc + wj) (rc + wi)) / (M * M))
         window_offsets))).
  - replace (0 + 11 * Z.of_nat (length window_offsets))%Z with 121%Z
      by reflexivity.
    rewrite Rplus_0_l. reflexivity.
  - intros wi c s Hwi. apply window_offsets_bounds in Hwi.
    unfold noise_inner. rewrite Ew.
    rewrite (for_each_sum window_offsets 1
      (fun wj => sq_mag (sample_at m (dc + wj) (rc + wi)) / (M * M))).
    + replace (c + 1 * Z.of_nat (length window_offsets))%Z with (c + 11)%Z
        by (cbn; lia).
      reflexivity.
    + intros wj c' s' Hwj. apply window_offsets_bounds in Hwj.
      destruct (noise_term m M n (dc + wj) (rc + wi) HM Hfin Hrows) as [c0 [E1 E2]];
        [lia | lia |].
      rewrite E1. cbn. rewrite E2. reflexivity.
Qed.

(** ** Failures of the noise-floor loop *)

Lemma py_index_only_index_error {A : Type} (l : list A) (i : Z) (e : pyexc) :
  py_index l i = Err e -> e = IndexError.
Proof.
  unfold py_index. destruct (_ && _)%bool; [| congruence].
  destruct (nth_error l _); congruence.
Qed.

Lemma py_index_past_end {A : Type} (l : list A) (i : Z) :
  (0 <= i)%Z -> (Z.of_nat (length l) <= i)%Z -> py_index l i = Err IndexError.
Proof.
  intros H1 H2. unfold py_index.
  destruct (Z.ltb_spec i 0) as [Hn | _]; [lia |].
  destruct (Z.ltb_spec i (Z.of_nat (length l))) as [Hn | _]; [lia |].
  rewrite Bool.andb_false_r. reflexivity.
Qed.

Lemma index2_only_index_error {A : Type} (m : list (list A)) (i j : Z) (e : pyexc) :
  index2 m i j = Err e -> e = IndexError.
Proof.
  unfold index2. destruct (py_index m i) as [row |] eqn:E; cbn.
  - apply py_index_only_index_error.
  - intros H. injection H as <-. eapply py_index_only_index_error. exact E.
Qed.

Lemma for_each_only_index_error {S : Type} (l : list Z) (body : Z -> S -> pyres S)
  (s : S) (e : pyexc) :
  (forall i s e, body i s = Err e -> e = IndexError) ->
  for_each l body s = Err e -> e = IndexError.
Proof.
  revert s. induction l as [| i r IH]; intros s Hb; cbn; [discriminate |].
  destruct (body i s) as [s' |] eqn:E; cbn.
  - apply IH. exact Hb.
  - intros H. injection H as <-. eapply Hb. exact E.
Qed.

(** A loop one of whose iterations raises [IndexError] in every state
    raises [IndexError]. *)
Lemma for_each_err {S : Type} (l : list Z) (body : Z -> S -> pyres S) (x : Z) (s : S) :
  (forall i s e, body i s = Err e -> e = IndexError) ->
  In x l -> (forall s, body x s = Err IndexError) ->
  for_each l body s = Err IndexError.
Proof.
  intros Hb. revert s. induction l as [| i r IH]; intros s Hin Hx; [destruct Hin |].
  cbn. destruct (body i s) as [s' |] eqn:E; cbn.
  - destruct Hin as [-> | Hin]; [rewrite Hx in E; discriminate |].
    apply IH; assumption.
  - f_equal. eapply Hb. exact E.
Qed.

Lemma noise_inner_only_index_error (m : matrix) (dc rc wi : Z) (st : Z * ext)
  (e : pyexc) :
  noise_inner m dc rc wi st = Err e -> e = IndexError.
Proof.
  unfold noise_inner. apply for_each_only_index_error.
  intros wj [c nf] e'. destruct (index2 m _ _) as [c0 |] eqn:E; cbn; [discriminate |].
  intros H. injection H as <-. eapply index2_only_index_error. exact E.
Qed.

Lemma scale_rows (m : matrix) (mx : ext) (n : nat) :
  Forall (fun row => length row = n) m ->
  Forall (fun row => length row = n) (scale_matrix m mx).
Proof.
  intros H. unfold scale_matrix. apply Forall_map.
  eapply Forall_impl; [| exact H]. intros row Hr. rewrite length_map. exact Hr.
Qed.

(** When the window reaches past the last row or the last column of a
    rectangular matrix, the noise-floor loop raises [IndexError]. *)
Lemma noise_loop_out_of_bounds (m : matrix) (n : nat) (dc rc : Z) :
  Forall (fun row => length row = n) m -> (5 <= dc)%Z -> (5 <= rc)%Z ->
  (Z.of_nat (length m) <= dc + 5)%Z \/ (Z.of_nat n <= rc + 5)%Z ->
  noise_loop m dc rc = Err IndexError.
Proof.
  intros Hrows Hdc Hrc Hout. unfold noise_loop.
  destruct np_arange_window as [Ew El]. rewrite El.
  destruct Hout as [Hrow | Hcol].
  - apply (for_each_err _ _ (-5)%Z);
      [intros i s e; apply noise_inner_only_index_error | cbn; tauto |].
    intros s. unfold noise_inner. rewrite Ew.
    apply (for_each_err _ _ 5%Z).
    + intros wj [c nf] e. destruct (index2 m _ _) as [c0 |] eqn:E; cbn;
        [discriminate |].
      intros H. injection H as <-. eapply index2_only_index_error. exact E.
    + cbn. tauto.
    + intros [c nf]. unfold index2. rewrite py_index_past_end by lia. reflexivity.
  - apply (for_each_err _ _ 5%Z);
      [intros i s e; apply noise_inner_only_index_error | cbn; tauto |].
    intros s. unfold noise_inner. rewrite Ew.
    apply (for_each_err _ _ (-5)%Z).
    + intros wj [c nf] e. destruct (index2 m _ _) as [c0 |] eqn:E; cbn;
        [discriminate |].
      intros H. injection H as <-. eapply index2_only_index_error. exact E.
    + cbn. tauto.
    + intros [c nf]. unfold index2.
      destruct (py_index m (dc + -5)) as [row |] eqn:E; cbn;
        [| apply py_index_only_index_error in E; subst; reflexivity].
      apply py_index_in in E. rewrite Forall_forall in Hrows.
      rewrite (py_index_past_end row (rc + 5)) by (try rewrite (Hrows row E); lia).
      reflexivity.
Qed.

(** ** Cells of the normalized matrix *)

Lemma py_index_map {A B : Type} (f : A -> B) (l : list A) (i : Z) :
  py_index (map f l) i = (a <- py_index l i ;; Ok (f a)).
Proof.
  unfold py_index. rewrite length_map.
  destruct (_ && _)%bool; [| reflexivity].
  rewrite nth_error_map. destruct (nth_error l _); reflexivity.
Qed.

Lemma index2_map {A B : Type} (f : A -> B) (m : list (list A)) (i j : Z) :
  index2 (map (map f) m) i j = (a <- index2 m i j ;; Ok (f a)).
Proof.
  unfold index2. rewrite py_index_map.
  destruct (py_index m i) as [row |]; cbn; [apply py_index_map | reflexivity].
Qed.

Lemma sum_zero (l : list Z) (f : Z -> R) :
  (forall x, In x l -> f x = 0) -> fold_right Rplus 0 (map f l) = 0.
Proof.
  induction l as [| x r IH]; intros H; cbn; [reflexivity |].
  rewrite H by (left; reflexivity). rewrite IH by (intros; apply H; right; assumption).
  ring.
Qed.

(** ** The compression block *)

Lemma compression_auto (dc rc : Z) (m : matrix) :
  finite_matrix m -> has_signal m ->
  exists M, 0 < M /\ np_max (map cabs (concat m)) = Ok (Fin M) /\
    Forall (below M) (map cabs (concat m)) /\ In (Fin M) (map cabs (concat m)) /\
    fst (dyn_range_compression dc rc m None) = scale_matrix m (Fin M) /\
    (forall out dr, snd (dyn_range_compression dc rc m None) = Ok (out, dr) ->
       dyn_range_ok dr /\ normalize_db (scale_matrix m (Fin M)) dr = Ok out).
Proof.
  intros Hfin Hsig. destruct (max_magnitude m Hfin Hsig) as [M [HM [Emax [Hb Hin]]]].
  exists M. do 4 (split; [assumption |]). split.
  - unfold dyn_range_compression. rewrite Emax. reflexivity.
  - intros out dr. unfold dyn_range_compression. rewrite Emax. cbn [snd].
    destruct (noise_loop _ dc rc) as [[c nf] |] eqn:En; cbn; [| discriminate].
    destruct (normalize_db _ _) as [o |] eqn:Eo; cbn; [| discriminate].
    intros H. injection H as <- <-. split; [| exact Eo].
    apply (estimated_dyn_range_ok (c, nf)). eapply noise_loop_bounded; [| exact En].
    apply scaled_unit_bounded; assumption.
Qed.

Lemma compression_result (dc rc : Z) (m : matrix) (dyn_range : option R)
  (out : dmatrix) (dr : ext) :
  finite_matrix m -> has_signal m ->
  snd (dyn_range_compression dc rc m dyn_range) = Ok (out, dr) ->
  exists m0, finite_matrix m0 /\ has_signal m0 /\
    map (@length _) m0 = map (@length _) m /\ normalize_db m0 dr = Ok out /\
    match dyn_range with Some d => dr = Fin d | None => dyn_range_ok dr end.
Proof.
  intros Hfin Hsig. destruct dyn_range as [d |].
  - cbn. destruct (normalize_db m (Fin d)) as [o |] eqn:E; cbn; [| discriminate].
    intros H. injection H as <- <-. exists m. auto.
  - intros H.
    destruct (compression_auto dc rc m Hfin Hsig) as [M [HM [_ [Hb [_ [_ Hok]]]]]].
    destruct (Hok out dr H) as [Hdr Hn].
    exists (scale_matrix m (Fin M)). repeat split; auto.
    + apply scaled_finite; assumption.
    + apply scaled_signal; assumption.
    + unfold scale_matrix. rewrite map_map. apply map_ext. intros row.
      apply length_map.
Qed.

Lemma compression_peak (dc rc : Z) (m : matrix) (dyn_range : option R)
  (out : dmatrix) (dr : ext) :
  finite_matrix m -> has_signal m -> (forall d, dyn_range = Some d -> 0 <= d) ->
  snd (dyn_range_compression dc rc m dyn_range) = Ok (out, dr) ->
  np_max (concat out) = Ok (Fin 0).
Proof.
  intros Hfin Hsig Hd E.
  destruct (compression_result dc rc m dyn_range out dr Hfin Hsig E)
    as [m0 [Hf0 [Hs0 [_ [Hn Hdr]]]]].
  assert (Hok : dyn_range_ok dr).
  { destruct dyn_range as [d |]; [| exact Hdr].
    right. exists d. split; [exact Hdr | apply Hd; reflexivity]. }
  destruct (normalize_db_max_zero m0 dr Hf0 Hs0 Hok) as [o [Ho Hmax]].
  rewrite Hn in Ho. injection Ho as <-. exact Hmax.
Qed.

(** ** Concrete evaluations *)

Lemma export_unit_30 :
  ret (export_rd_matrix_img [[CFin 1 0]] (Some 30)) = Ok [[Fin 0]].
Proof.
  cbn [export_rd_matrix_img dyn_range_compression normalize_db to_db map concat
       app np_max fold_left bind fst ret].
  rewrite db_one. cbn. unfold clamp_cell. cbn.
  rewrite Rplus_opp_r. split_ifs; [lra | reflexivity].
Qed.

Lemma export_zero_30 :
  ret (export_rd_matrix_img [[CFin 0 0]] (Some 30)) = Ok [[NaN]].
Proof.
  cbn [export_rd_matrix_img dyn_range_compression normalize_db to_db map concat
       app np_max fold_left bind fst ret].
  rewrite db_zero by ring. reflexivity.
Qed.

Lemma export_unit_neg5 :
  ret (export_rd_matrix_img [[CFin 1 0]] (Some (-5))) = Ok [[Fin 5]].
Proof.
  cbn [export_rd_matrix_img dyn_range_compression normalize_db to_db map concat
       app np_max fold_left bind fst ret].
  rewrite db_one. cbn. unfold clamp_cell. cbn.
  rewrite Rplus_opp_r. split_ifs; [| lra].
  do 4 f_equal. ring.
Qed.

(** ** Slices and the caller's matrix *)

Lemma map_m_index (l : list (list ext)) (n j : nat) (d : ext) :
  Forall (fun row => length row = n) l -> (j < n)%nat ->
  map_m (fun row => py_index_num row (PInt (Z.of_nat j))) l
  = Ok (map (fun row => nth j row d) l).
Proof.
  intros Hrows Hj. induction l as [| row r IH]; [reflexivity |].
  inversion Hrows as [| ? ? Hr Hrs]; subst. cbn [map_m map].
  rewrite IH by exact Hrs. cbn [py_index_num].
  rewrite (py_index_nth row (Z.of_nat j) d) by lia. rewrite Nat2Z.id. reflexivity.
Qed.

Lemma doppler_slice_keeps (m : matrix) (b : pynum) (fs max_Doppler : option R)
  (fig : option figure) :
  rd_after (plot_Doppler_slice m b fs max_Doppler fig) = m.
Proof.
  unfold plot_Doppler_slice, doppler_slice_tail.
  destruct fs as [r |]; split_ifs; try reflexivity.
  destruct np_argmin; split_ifs; reflexivity.
Qed.

Lemma range_slice_draw_keeps (m : matrix) (f : pynum) (fs max_Doppler : option R)
  (fig : option figure) :
  rd_after (range_slice_draw m f fs max_Doppler fig) = m.
Proof.
  unfold range_slice_draw, range_slice_tail, range_out_of_range.
  destruct max_Doppler as [md |]; split_ifs; try reflexivity;
    try (destruct format_d; reflexivity).
  destruct np_argmin; [| reflexivity]. split_ifs;
    try (destruct format_d; reflexivity); reflexivity.
Qed.

Lemma range_slice_keeps (m : matrix) (f : pynum) (fs max_Doppler : option R)
  (fig : option figure) :
  rd_after (plot_range_slice m f fs max_Doppler fig) = m.
Proof. apply range_slice_draw_keeps. Qed.

(** The largest magnitude of the scaled matrix is 1. *)
Lemma scaled_max_one (m : matrix) (M : R) :
  0 < M -> finite_matrix m ->
  Forall (below M) (map cabs (concat m)) -> In (Fin M) (map cabs (concat m)) ->
  np_max (map cabs (concat (scale_matrix m (Fin M)))) = Ok (Fin 1).
Proof.
  intros HM Hfin Hb Hin. apply np_max_attained.
  - pose proof (scaled_unit_bounded m M HM Hfin Hb) as Hu. unfold unit_bounded in Hu.
    apply Forall_forall. intros v Hv. apply in_map_iff in Hv as [c [<- Hc]].
    rewrite Forall_forall in Hu. destruct (Hu c Hc) as [x [y [-> Hxy]]].
    right. exists (sqrt (x * x + y * y)). split; [reflexivity |].
    rewrite <- sqrt_1. apply sqrt_le_1_alt. exact Hxy.
  - apply in_map_iff in Hin as [c [Ec Hc]].
    unfold finite_matrix in Hfin. rewrite Forall_forall in Hfin.
    destruct (Hfin c Hc) as [x [y ->]]. cbn in Ec. injection Ec as Ec.
    apply in_map_iff. exists (cdiv (CFin x y) (Fin M)). split.
    + rewrite cdiv_pos by exact HM. cbn. rewrite scaled_sq by exact HM.
      assert (E : x * x + y * y = M * M).
      { rewrite <- Ec. rewrite sqrt_sqrt; [reflexivity | nra]. }
      rewrite E. unfold Rdiv. rewrite Rinv_r by nra. rewrite sqrt_1. reflexivity.
    + rewrite concat_scale. apply (in_map (fun c => cdiv c (Fin M))). exact Hc.
Qed.

Lemma export_after (m : matrix) (dyn_range : option R) :
  rd_after (export_rd_matrix_img m dyn_range)
  = fst (dyn_range_compression 30 20 m dyn_range).
Proof.
  unfold export_rd_matrix_img. destruct (dyn_range_compression 30 20 m dyn_range).
  reflexivity.
Qed.

Lemma plot_after (m : matrix) (dyn_range fs max_Doppler : option R) :
  rd_after (plot_rd_matrix m dyn_range fs max_Doppler)
  = fst (dyn_range_compression 10 20 m dyn_range).
Proof.
  unfold plot_rd_matrix. destruct (dyn_range_compression 10 20 m dyn_range).
  reflexivity.
Qed.

(** ** Constant matrices *)

Lemma ones_finite (rows cols : nat) : finite_matrix (ones rows cols).
Proof.
  unfold finite_matrix, ones. apply Forall_forall. intros c Hc.
  apply in_concat in Hc as [row [Hr Hc]]. apply repeat_spec in Hr. subst row.
  apply repeat_spec in Hc. subst c. eauto.
Qed.

Lemma ones_rows (rows cols : nat) :
  Forall (fun row => length row = cols) (ones rows cols).
Proof.
  unfold ones. apply Forall_forall. intros row Hr. apply repeat_spec in Hr.
  subst row. apply repeat_length.
Qed.

Lemma ones_signal (rows cols : nat) :
  (0 < rows)%nat -> (0 < cols)%nat -> has_signal (ones rows cols).
Proof.
  intros Hr Hc. exists 1, 0. split; [| lra].
  unfold ones. apply in_concat. exists (repeat (CFin 1 0) cols).
  destruct rows as [| r]; [lia |]. destruct cols as [| c]; [lia |].
  split; left; reflexivity.
Qed.

Lemma ones_length (rows cols : nat) : length (ones rows cols) = rows.
Proof. apply repeat_length. Qed.

(** * Claims *)

(** C4 (counterexample): running the normalization again on its own output
    does not return it.  The one-cell matrix [[1]] normalizes to [[0 dB]];
    fed back with the same [dyn_range = 30], [[0]] normalizes to [[nan]]
    ([log10 0 = -inf], and [-inf - (-inf) = nan]). *)
Lemma normalize_rerun_changes_output :
  ret (export_rd_matrix_img [[CFin 1 0]] (Some 30)) = Ok [[Fin 0]] /\
  ret (export_rd_matrix_img [[CFin 0 0]] (Some 30)) = Ok [[NaN]].
Proof. split; [exact export_unit_30 | exact export_zero_30]. Qed.

(** C4 (amended): with the same [dyn_range], clamping the normalized matrix
    a second time leaves it unchanged. *)
Theorem floor_clamp_idempotent (m : matrix) (dyn_range : ext) :
  (out <- normalize_db m dyn_range ;; Ok (clamp dyn_range out))
  = normalize_db m dyn_range.
Proof.
  unfold normalize_db. destruct (np_max (concat (to_db m))) as [mx | e];
    [| reflexivity].
  cbn. f_equal. unfold clamp. rewrite map_map. apply map_ext. intros row.
  rewrite map_map. apply map_ext. apply clamp_cell_idem.
Qed.


(** C6 (code_bug): [plot_range_slice] without [max_Doppler] formats its
    out-of-range message with ["{:d}"], which raises [ValueError] for the
    float [Doppler_freq] its docstring documents.  On a 64 x 64 matrix the
    float request [70.0] raises and prints nothing, while the integer
    request [70] prints the error and returns [None]. *)
Theorem range_slice_float_index_raises :
  plot_range_slice (repeat (repeat (CFin 1 0) 64) 64) (PFloat 70) None None None
    = mk_call (repeat (repeat (CFin 1 0) 64) 64) [] (Err ValueError) /\
  plot_range_slice (repeat (repeat (CFin 1 0) 64) 64) (PInt 70) None None None
    = mk_call (repeat (repeat (CFin 1 0) 64) 64)
        ["ERROR: Doppler frequency is out of range."%string] (Ok None).
Proof.
  unfold plot_range_slice, range_slice_draw, range_slice_tail, nrows, to_db.
  cbv zeta. rewrite length_map, repeat_length.
  replace (INR 64) with 64 by (rewrite INR_IZR_INZ; reflexivity).
  cbn [pyval].
  split_ifs; try lra; split; reflexivity.
Qed.

(** C8 (counterexample): when the noise-floor window does not fit in the
    matrix, the estimation raises [IndexError]; it does not produce
    [inf]/[nan].  One-cell matrix, [dyn_range] not supplied. *)
Lemma small_matrix_estimation_raises :
  ret (export_rd_matrix_img [[CFin 1 0]] None) = Err IndexError.
Proof.
  unfold export_rd_matrix_img, dyn_range_compression, scale_matrix.
  cbn [map concat app np_max fold_left cabs cdiv].
  split_ifs; reflexivity.
Qed.

(** C9 (counterexample): with an explicit [dyn_range] the caller's matrix
    keeps its values. *)
Lemma explicit_call_keeps_caller_matrix :
  rd_after (export_rd_matrix_img [[CFin 1 0]] (Some 30)) = [[CFin 1 0]].
Proof. reflexivity. Qed.

(** C10: with an explicit [dyn_range], [export_rd_matrix_img] and
    [plot_rd_matrix] leave the caller's matrix unchanged, and so do the
    slice plots, which rebind [rd_matrix] to a fresh dB array. *)
Theorem explicit_dyn_range_preserves_input (m : matrix) (d : R)
  (fs max_Doppler : option R) (fig : option figure) (b f : pynum) :
  rd_after (export_rd_matrix_img m (Some d)) = m /\
  rd_after (plot_rd_matrix m (Some d) fs max_Doppler) = m /\
  rd_after (plot_Doppler_slice m b fs max_Doppler fig) = m /\
  rd_after (plot_range_slice m f fs max_Doppler fig) = m.
Proof.
  repeat split; [apply doppler_slice_keeps | apply range_slice_keeps].
Qed.

(** C7: with [fs > 0], asking [plot_Doppler_slice] for the physical
    bistatic range [k * c / fs] of a bin [k] of the matrix gives the same
    result as asking for bin [k] without [fs]. *)
Theorem physical_range_matches_bin (m : matrix) (fs : R) (k : nat)
  (max_Doppler : option R) (fig : option figure) :
  0 < fs -> (k < ncols m)%nat ->
  plot_Doppler_slice m (PFloat (INR k * c_light / fs)) (Some fs) max_Doppler fig
  = plot_Doppler_slice m (PInt (Z.of_nat k)) None max_Doppler fig.
Proof.
  intros Hfs Hk.
  assert (Hd : 0 < c_light / fs)
    by (apply Rdiv_lt_0_compat; [apply c_light_pos | exact Hfs]).
  assert (Hk0 : 0 <= INR k) by apply pos_INR.
  assert (HkR : INR k + 1 <= INR (ncols m))
    by (rewrite <- S_INR; apply le_INR; lia).
  unfold plot_Doppler_slice. cbn [pyval]. rewrite ncols_to_db.
  rewrite <- INR_IZR_INZ.
  replace (INR k * c_light / fs) with (INR k * (c_light / fs))
    by (unfold Rdiv; ring).
  destruct (Rlt_dec (INR k * (c_light / fs)) 0) as [Hlt | _].
  { exfalso. assert (0 <= INR k * (c_light / fs)) by (apply Rmult_le_pos; lra).
    lra. }
  destruct (Rlt_dec (INR k) 0) as [Hlt | _]; [lra |].
  destruct (Req_dec_T fs 0) as [Hz | _]; [lra |].
  destruct (Rgt_dec (INR k * (c_light / fs)) ((INR (ncols m) - 1) * (c_light / fs)))
    as [Hgt | _].
  { exfalso. apply Rgt_lt in Hgt. apply Rmult_lt_reg_r in Hgt; lra. }
  rewrite (seq_split k (ncols m) Hk), map_app. cbn [map].
  rewrite Rminus_diag, Rabs_R0.
  rewrite np_argmin_zero, length_map, length_seq; [reflexivity | |].
  - apply Forall_forall. intros x Hx. apply in_map_iff in Hx as [j [<- Hj]].
    apply in_seq in Hj. apply Rabs_pos_lt.
    assert (INR j < INR k) by (apply lt_INR; lia).
    intros E. assert ((INR j - INR k) * (c_light / fs) = 0) by lra.
    apply Rmult_integral in H0 as [H0 | H0]; lra.
  - apply Forall_forall. intros x Hx. apply in_map_iff in Hx as [j [<- Hj]].
    apply in_seq in Hj. apply Rabs_pos_lt.
    assert (INR k < INR j) by (apply lt_INR; lia).
    intros E. assert ((INR j - INR k) * (c_light / fs) = 0) by lra.
    apply Rmult_integral in H0 as [H0 | H0]; lra.
Qed.

(** A witness for C7: bin 2 of a one-row, four-column matrix at
    [fs = 2 MHz]. *)
Lemma physical_range_matches_bin_witness :
  plot_Doppler_slice [repeat (CFin 1 0) 4] (PFloat (INR 2 * c_light / 2000000))
    (Some 2000000) None None
  = plot_Doppler_slice [repeat (CFin 1 0) 4] (PInt (Z.of_nat 2)) None None None.
Proof.
  apply (physical_range_matches_bin [repeat (CFin 1 0) 4] 2000000 2 None None).
  - lra.
  - cbn. lia.
Defined.

(** C1 (amended): for a matrix of finite samples with at least one
    non-zero sample, and a dynamic range that is either estimated or
    supplied non-negative, the matrix drawn by [export_rd_matrix_img] and by
    [plot_rd_matrix] (when they return) has its maximum at exactly 0 dB. *)
Theorem normalized_peak_is_0dB (m : matrix) (dyn_range fs max_Doppler : option R) :
  finite_matrix m -> has_signal m -> (forall d, dyn_range = Some d -> 0 <= d) ->
  match ret (export_rd_matrix_img m dyn_range) with
  | Ok out => np_max (concat out) = Ok (Fin 0)
  | Err _ => True
  end /\
  match ret (plot_rd_matrix m dyn_range fs max_Doppler) with
  | Ok [Heatmap _ _ z] => np_max (concat z) = Ok (Fin 0)
  | Ok _ => False
  | Err _ => True
  end.
Proof.
  intros Hfin Hsig Hd. split.
  - unfold export_rd_matrix_img.
    destruct (dyn_range_compression 30 20 m dyn_range) as [after [[out dr] | e]] eqn:E;
      cbn; [| exact I].
    apply (compression_peak 30 20 m dyn_range out dr Hfin Hsig Hd).
    rewrite E. reflexivity.
  - unfold plot_rd_matrix.
    destruct (dyn_range_compression 10 20 m dyn_range) as [after [[out dr] | e]] eqn:E;
      cbn; [| exact I].
    assert (Hp : np_max (concat out) = Ok (Fin 0)).
    { apply (compression_peak 10 20 m dyn_range out dr Hfin Hsig Hd).
      rewrite E. reflexivity. }
    destruct fs as [f0 |]; [destruct (Req_dec_T f0 0) |]; cbn; first [exact I | exact Hp].
Qed.

Lemma unit_cell_finite : finite_matrix [[CFin 1 0]].
Proof. repeat constructor. eauto. Qed.

Lemma unit_cell_signal : has_signal [[CFin 1 0]].
Proof. exists 1, 0. split; [left; reflexivity | lra]. Qed.

(** A witness for C1: the one-sample matrix [[1]] with [dyn_range = 30]. *)
Lemma normalized_peak_is_0dB_witness :
  finite_matrix [[CFin 1 0]] /\ has_signal [[CFin 1 0]] /\
  (forall d, Some 30 = Some d -> 0 <= d) /\
  (match ret (export_rd_matrix_img [[CFin 1 0]] (Some 30)) with
   | Ok out => np_max (concat out) = Ok (Fin 0)
   | Err _ => True
   end /\
   match ret (plot_rd_matrix [[CFin 1 0]] (Some 30) None None) with
   | Ok [Heatmap _ _ z] => np_max (concat z) = Ok (Fin 0)
   | Ok _ => False
   | Err _ => True
   end).
Proof.
  assert (Hd : forall d, Some 30 = Some d -> 0 <= d)
    by (intros d H; injection H as <-; lra).
  split; [exact unit_cell_finite |]. split; [exact unit_cell_signal |].
  split; [exact Hd |].
  apply (normalized_peak_is_0dB [[CFin 1 0]] (Some 30) None None
           unit_cell_finite unit_cell_signal Hd).
Defined.

(** C2 (amended): in the compression block of [export_rd_matrix_img]
    ([doppler_cell_index = 30], [range_cell_index = 20]) and of
    [plot_rd_matrix] ([10], [20]), for a matrix of finite samples with at
    least one non-zero sample, the normalized matrix keeps the shape of the
    input and every cell is [>= -dyn_range] for the effective dynamic range
    (the supplied one, or the estimate). *)
Theorem normalized_cells_above_floor (dc rc : Z) (m : matrix) (dyn_range : option R) :
  finite_matrix m -> has_signal m ->
  match snd (dyn_range_compression dc rc m dyn_range) with
  | Ok (out, dr) =>
      map (@length _) out = map (@length _) m /\
      Forall (fun v => ext_ge v (ext_opp dr) = true) (concat out) /\
      (forall d, dyn_range = Some d -> dr = Fin d)
  | Err _ => True
  end.
Proof.
  intros Hfin Hsig.
  destruct (snd (dyn_range_compression dc rc m dyn_range)) as [[out dr] | e] eqn:E;
    [| exact I].
  destruct (compression_result dc rc m dyn_range out dr Hfin Hsig E)
    as [m0 [Hf0 [Hs0 [Hlen [Hn Hdr]]]]].
  assert (Hkind : dr = PInf \/ exists d, dr = Fin d).
  { destruct dyn_range as [d |]; [right; exists d; exact Hdr |].
    destruct Hdr as [-> | [d [-> _]]]; [left; reflexivity | right; eauto]. }
  destruct (normalize_db_floor m0 dr Hf0 Hs0 Hkind) as [o [Ho [Hshape Hge]]].
  rewrite Hn in Ho. injection Ho as <-.
  split; [congruence | split; [exact Hge |]].
  intros d ->. exact Hdr.
Qed.

(** A witness for C2: the one-sample matrix [[1]] with [dyn_range = 30]. *)
Lemma normalized_cells_above_floor_witness :
  finite_matrix [[CFin 1 0]] /\ has_signal [[CFin 1 0]] /\
  match snd (dyn_range_compression 30 20 [[CFin 1 0]] (Some 30)) with
  | Ok (out, dr) =>
      map (@length _) out = map (@length _) [[CFin 1 0]] /\
      Forall (fun v => ext_ge v (ext_opp dr) = true) (concat out) /\
      (forall d, Some 30 = Some d -> dr = Fin d)
  | Err _ => True
  end.
Proof.
  split; [exact unit_cell_finite |]. split; [exact unit_cell_signal |].
  apply (normalized_cells_above_floor 30 20 [[CFin 1 0]] (Some 30)
           unit_cell_finite unit_cell_signal).
Defined.

(** C1 (counterexample): the peak is not always 0 dB.  With the supplied
    [dyn_range = -5] the clamp lifts the 0 dB peak of [[1]] to 5 dB, and the
    all-zero matrix [[0]] normalizes to [nan]. *)
Lemma peak_not_always_0dB :
  ret (export_rd_matrix_img [[CFin 1 0]] (Some (-5))) = Ok [[Fin 5]] /\
  np_max (concat [[Fin 5]]) = Ok (Fin 5) /\
  ret (export_rd_matrix_img [[CFin 0 0]] (Some 30)) = Ok [[NaN]] /\
  np_max (concat [[NaN]]) = Ok NaN.
Proof.
  split; [exact export_unit_neg5 |]. split; [reflexivity |].
  split; [exact export_zero_30 | reflexivity].
Qed.

(** C2 (counterexample): the all-zero matrix [[0]] with [dyn_range = 30]
    normalizes to [[nan]], and [nan >= -30] is false. *)
Lemma zero_matrix_cell_below_floor :
  ret (export_rd_matrix_img [[CFin 0 0]] (Some 30)) = Ok [[NaN]] /\
  ext_ge NaN (ext_opp (Fin 30)) = false.
Proof. split; [exact export_zero_30 | reflexivity]. Qed.

(** C3: without a supplied [dyn_range], the compression block of
    [export_rd_matrix_img] ([doppler_cell_index = 30],
    [range_cell_index = 20]) and of [plot_rd_matrix] ([10], [20]) first
    divides the caller's matrix in place by its largest magnitude [M]; the
    effective dynamic range is then [-10 * log10] of the mean of
    [|x / M|^2] over the 121 cells of the [11 x 11] window centred at the
    reference cell.  Stated for a rectangular matrix of finite samples,
    with a non-zero sample, that contains the window. *)
Theorem estimated_dyn_range_from_window (dc rc : Z) (m : matrix) (n : nat) :
  finite_matrix m -> has_signal m -> Forall (fun row => length row = n) m ->
  (5 <= dc)%Z -> (dc + 5 < Z.of_nat (length m))%Z ->
  (5 <= rc)%Z -> (rc + 5 < Z.of_nat n)%Z ->
  exists M out,
    0 < M /\ np_max (map cabs (concat m)) = Ok (Fin M) /\
    fst (dyn_range_compression dc rc m None) = scale_matrix m (Fin M) /\
    snd (dyn_range_compression dc rc m None)
      = Ok (out, ext_scale (-10) (log10 (Fin (spec_noise_floor m M dc rc)))).
Proof.
  intros Hfin Hsig Hrows Hd1 Hd2 Hr1 Hr2.
  destruct (compression_auto dc rc m Hfin Hsig) as [M [HM [Emax [_ [_ [Efst _]]]]]].
  set (dr := ext_scale (-10) (log10 (Fin (spec_noise_floor m M dc rc)))).
  destruct (normalize_db_peak (scale_matrix m (Fin M)) dr
              (scaled_finite m M HM Hfin) (scaled_signal m M HM Hsig))
    as [b [_ [_ Eo]]].
  exists M, (clamp dr (shift (Fin b) (to_db (scale_matrix m (Fin M))))).
  split; [exact HM |]. split; [exact Emax |]. split; [exact Efst |].
  unfold dyn_range_compression. rewrite Emax. cbn [snd].
  rewrite (noise_loop_window m M n dc rc HM Hfin Hrows Hd1 Hd2 Hr1 Hr2).
  cbn [bind ext_div_pos].
  replace (Fin (fold_right Rplus 0
     (map (fun wi => fold_right Rplus 0
        (map (fun wj => sq_mag (sample_at m (dc + wj) (rc + wi)) / (M * M))
           window_offsets)) window_offsets) / IZR 121))
    with (Fin (spec_noise_floor m M dc rc)).
  - fold dr. rewrite Eo. reflexivity.
  - unfold spec_noise_floor. f_equal. f_equal.
    rewrite <- mult_INR, INR_IZR_INZ. reflexivity.
Qed.

(** A witness for C3: the [36 x 26] matrix of ones with the reference cell
    [(30, 20)] of [export_rd_matrix_img]. *)
Lemma estimated_dyn_range_from_window_witness :
  exists M out,
    0 < M /\ np_max (map cabs (concat (ones 36 26))) = Ok (Fin M) /\
    fst (dyn_range_compression 30 20 (ones 36 26) None)
      = scale_matrix (ones 36 26) (Fin M) /\
    snd (dyn_range_compression 30 20 (ones 36 26) None)
      = Ok (out, ext_scale (-10) (log10 (Fin (spec_noise_floor (ones 36 26) M 30 20)))).
Proof.
  apply (estimated_dyn_range_from_window 30 20 (ones 36 26) 26).
  - apply ones_finite.
  - apply ones_signal; lia.
  - apply ones_rows.
  - lia.
  - rewrite ones_length. cbn. lia.
  - lia.
  - cbn. lia.
Defined.

(** ** Matrices whose largest magnitude is [nan] or 0 *)

Lemma fold_max_nan (l : list ext) (acc : ext) :
  (acc = NaN \/ In NaN l) -> fold_left ext_max l acc = NaN.
Proof.
  revert acc. induction l as [| x r IH]; intros acc H; cbn.
  - destruct H as [-> | []]. reflexivity.
  - apply IH. destruct H as [-> | [-> | H]].
    + left. reflexivity.
    + left. destruct acc; reflexivity.
    + right. exact H.
Qed.

(** The samples of a list hold a [nan], or are all finite with a non-zero
    one, or are all 0. *)
Lemma cells_cases (l : list cell) :
  In CNaN l \/
  (Forall (fun c => exists x y, c = CFin x y) l /\
   exists x y, In (CFin x y) l /\ 0 < x * x + y * y) \/
  (forall c, In c l -> c = CFin 0 0).
Proof.
  induction l as [| c r IH].
  - right. right. intros c [].
  - destruct c as [x y |]; [| left; left; reflexivity].
    destruct IH as [Hn | [[Hf [x0 [y0 [Hi Hp]]]] | Hz]].
    + left. right. exact Hn.
    + right. left. split; [constructor; eauto |].
      exists x0, y0. split; [right; exact Hi | exact Hp].
    + destruct (Rlt_dec 0 (x * x + y * y)) as [Hp | Hp].
      * right. left. split.
        -- constructor; [eauto |]. apply Forall_forall. intros c Hc.
           rewrite (Hz c Hc). eauto.
        -- exists x, y. split; [left; reflexivity | exact Hp].
      * right. right. intros c [<- | Hc]; [| apply Hz, Hc].
        assert (x = 0) by nra. assert (y = 0) by nra. subst. reflexivity.
Qed.

Lemma matrix_cases (m : matrix) :
  In CNaN (concat m) \/ (finite_matrix m /\ has_signal m) \/
  (forall c, In c (concat m) -> c = CFin 0 0).
Proof. apply cells_cases. Qed.

Lemma normalize_db_nan (m : matrix) (dr : ext) :
  In CNaN (concat m) -> normalize_db m dr = Ok (map (map (fun _ => NaN)) m).
Proof.
  intros Hin. unfold normalize_db. unfold to_db at 1. rewrite concat_map_map.
  assert (Hn : In NaN (map db (concat m))) by (apply (in_map db) in Hin; exact Hin).
  destruct (map db (concat m)) as [| x r] eqn:E; [destruct Hn |].
  cbn [np_max bind]. rewrite fold_max_nan by (destruct Hn; [left | right]; auto).
  f_equal. unfold clamp, shift, to_db. rewrite !map_map. apply map_ext. intros row.
  rewrite !map_map. apply map_ext. intros c.
  destruct (db c); reflexivity.
Qed.

Lemma np_max_nan (l : list cell) : In CNaN l -> np_max (map cabs l) = Ok NaN.
Proof.
  destruct l as [| c r]; [intros [] |]. intros Hin. cbn [map np_max]. f_equal.
  apply fold_max_nan. destruct Hin as [-> | Hin]; [left; reflexivity |].
  right. apply (in_map cabs) in Hin. exact Hin.
Qed.

Lemma cabs_zero : cabs (CFin 0 0) = Fin 0.
Proof. cbn. rewrite Rmult_0_l, Rplus_0_l. rewrite sqrt_0. reflexivity. Qed.

Lemma fold_max_zero (l : list cell) :
  (forall c, In c l -> c = CFin 0 0) -> fold_left ext_max (map cabs l) (Fin 0) = Fin 0.
Proof.
  induction l as [| c r IH]; intros Hz; [reflexivity |].
  cbn [map fold_left]. rewrite (Hz c (or_introl eq_refl)), cabs_zero.
  cbn [ext_max]. rewrite Rmax_left by lra.
  apply IH. intros c' Hc'. apply Hz. right. exact Hc'.
Qed.

Lemma np_max_zero (l : list cell) :
  l <> [] -> (forall c, In c l -> c = CFin 0 0) -> np_max (map cabs l) = Ok (Fin 0).
Proof.
  destruct l as [| c r]; [congruence |]. intros _ Hz. cbn [map np_max].
  rewrite (Hz c (or_introl eq_refl)), cabs_zero. f_equal.
  apply fold_max_zero. intros c' Hc'. apply Hz. right. exact Hc'.
Qed.

Lemma np_max_ok_nonempty (l : list cell) (mx : ext) :
  np_max (map cabs l) = Ok mx -> l <> [].
Proof. destruct l; [discriminate | congruence]. Qed.

(** Dividing by [nan] or by 0 gives [nan+nanj] everywhere. *)
Lemma scale_blank (m : matrix) (mx : ext) :
  mx = NaN \/ mx = Fin 0 -> scale_matrix m mx = map (map (fun _ => CNaN)) m.
Proof.
  intros Hmx. unfold scale_matrix. apply map_ext. intros row. apply map_ext.
  intros c. destruct Hmx as [-> | ->]; destruct c; cbn; try reflexivity.
  destruct (Req_dec_T 0 0) as [_ | H0]; [reflexivity | exfalso; apply H0; reflexivity].
Qed.

Lemma scale_one_any (m : matrix) : scale_matrix m (Fin 1) = m.
Proof.
  unfold scale_matrix. rewrite <- (map_id m) at 2. apply map_ext. intros row.
  rewrite <- (map_id row) at 2. apply map_ext. intros [x y |]; [| reflexivity].
  rewrite cdiv_pos by lra. f_equal; field.
Qed.

Lemma map_map_nil {A : Type} (f : A -> A) (m : list (list A)) :
  concat m = [] -> map (map f) m = m.
Proof.
  induction m as [| row r IH]; [reflexivity |]. cbn. intros H.
  apply app_eq_nil in H as [-> Hr]. cbn. f_equal. apply IH, Hr.
Qed.

(** The largest magnitude, when [np.max] returns: [nan] with a [nan]
    sample, 0 when every sample is 0. *)
Lemma np_max_blank (m : matrix) (mx : ext) :
  np_max (map cabs (concat m)) = Ok mx ->
  (forall c, In c (concat m) -> c = CFin 0 0) \/ In CNaN (concat m) ->
  mx = NaN \/ mx = Fin 0.
Proof.
  intros Emax [Hz | Hn].
  - right. rewrite (np_max_zero _ (np_max_ok_nonempty _ _ Emax) Hz) in Emax.
    injection Emax as <-. reflexivity.
  - left. rewrite (np_max_nan _ Hn) in Emax. injection Emax as <-. reflexivity.
Qed.

Lemma nth_map_const {A B : Type} (l : list A) (k : nat) (c : B) :
  nth k (map (fun _ => c) l) c = c.
Proof.
  revert k. induction l as [| a r IH]; intros [| k]; cbn; auto.
Qed.

Lemma index2_blank (m : matrix) (n : nat) (i j : Z) :
  Forall (fun row => length row = n) m ->
  (0 <= i < Z.of_nat (length m))%Z -> (0 <= j < Z.of_nat n)%Z ->
  index2 (map (map (fun _ => CNaN)) m) i j = Ok CNaN.
Proof.
  intros Hrows Hi Hj. unfold index2.
  rewrite (py_index_nth _ i (map (fun _ : cell => CNaN) [])) by (rewrite length_map; exact Hi).
  rewrite map_nth. cbn [bind].
  assert (Hlen : length (nth (Z.to_nat i) m []) = n).
  { rewrite Forall_forall in Hrows. apply Hrows, nth_In. lia. }
  rewrite (py_index_nth _ j CNaN) by (rewrite length_map; lia).
  rewrite nth_map_const. reflexivity.
Qed.

(** A loop whose every step succeeds into a state satisfying [Q] ends in
    such a state. *)
Lemma for_each_every {S : Type} (Q : S -> Prop) (l : list Z)
  (body : Z -> S -> pyres S) (s : S) :
  l <> [] -> (forall i x, In i l -> exists y, body i x = Ok y /\ Q y) ->
  exists s', for_each l body s = Ok s' /\ Q s'.
Proof.
  revert s. induction l as [| i r IH]; intros s Hl Hb; [congruence |].
  cbn [for_each]. destruct (Hb i s (or_introl eq_refl)) as [y [Ey Qy]].
  rewrite Ey. cbn [bind]. destruct r as [| i' r'].
  - exists y. split; [reflexivity | exact Qy].
  - apply IH; [congruence |]. intros i0 x Hi. apply Hb. right. exact Hi.
Qed.

Lemma ext_add_nan (a : ext) : ext_add a NaN = NaN.
Proof. destruct a; reflexivity. Qed.

(** The noise loop over a window of [nan+nanj] samples that fits in the
    matrix sums to [nan]. *)
Lemma noise_loop_blank (m : matrix) (n : nat) (dc rc : Z) :
  Forall (fun row => length row = n) m ->
  (5 <= dc)%Z -> (dc + 5 < Z.of_nat (length m))%Z ->
  (5 <= rc)%Z -> (rc + 5 < Z.of_nat n)%Z ->
  exists c, noise_loop (map (map (fun _ => CNaN)) m) dc rc = Ok (c, NaN).
Proof.
  intros Hrows Hd1 Hd2 Hr1 Hr2. unfold noise_loop.
  rewrite (proj2 np_arange_window).
  destruct (for_each_every (fun st => snd st = NaN) window_offsets
              (noise_inner (map (map (fun _ => CNaN)) m) dc rc) (0%Z, Fin 0))
    as [[c nf] [E Hnf]].
  - discriminate.
  - intros wi x Hwi. unfold noise_inner. rewrite (proj1 np_arange_window).
    apply for_each_every; [discriminate |].
    intros wj [c nf] Hwj. apply window_offsets_bounds in Hwi, Hwj.
    rewrite (index2_blank m n) by (exact Hrows || lia).
    cbn [bind cabs ext_sq]. eexists. split; [reflexivity |]. apply ext_add_nan.
  - cbn in Hnf. subst nf. exists c. exact E.
Qed.

(** The compression block without [dyn_range] on a matrix whose largest
    magnitude is [nan] or 0, with a window that fits. *)
Lemma compression_blank (dc rc : Z) (m : matrix) (n : nat) :
  Forall (fun row => length row = n) m -> concat m <> [] ->
  (5 <= dc)%Z -> (dc + 5 < Z.of_nat (length m))%Z ->
  (5 <= rc)%Z -> (rc + 5 < Z.of_nat n)%Z ->
  (forall c, In c (concat m) -> c = CFin 0 0) \/ In CNaN (concat m) ->
  dyn_range_compression dc rc m None
  = (map (map (fun _ => CNaN)) m, Ok (map (map (fun _ => NaN)) m, NaN)).
Proof.
  intros Hrows Hne Hd1 Hd2 Hr1 Hr2 Hc.
  destruct (np_max (map cabs (concat m))) as [mx |] eqn:Emax.
  2: { destruct (concat m) as [| c r]; [congruence | discriminate]. }
  unfold dyn_range_compression. rewrite Emax.
  rewrite (scale_blank m mx (np_max_blank m mx Emax Hc)).
  destruct (noise_loop_blank m n dc rc Hrows Hd1 Hd2 Hr1 Hr2) as [c Ec].
  rewrite Ec. cbn [bind ext_div_pos log10 ext_scale].
  rewrite normalize_db_nan.
  - rewrite map_map. cbn [bind]. do 3 f_equal. apply map_ext. intros row.
    rewrite map_map. reflexivity.
  - rewrite concat_map_map. destruct (concat m) as [| c0 r]; [congruence |].
    left. reflexivity.
Qed.

(** Without [dyn_range], running the compression block again on the array
    it left behind does exactly what the first run did. *)
Lemma compression_repeat (dc rc : Z) (m : matrix) :
  dyn_range_compression dc rc (fst (dyn_range_compression dc rc m None)) None
  = dyn_range_compression dc rc m None.
Proof.
  destruct (np_max (map cabs (concat m))) as [mx | e] eqn:Emax.
  2: { assert (Hf : fst (dyn_range_compression dc rc m None) = m)
         by (unfold dyn_range_compression; rewrite Emax; reflexivity).
       rewrite Hf. reflexivity. }
  assert (Hf : fst (dyn_range_compression dc rc m None) = scale_matrix m mx)
    by (unfold dyn_range_compression; rewrite Emax; reflexivity).
  rewrite Hf.
  assert (Hid : exists mx', np_max (map cabs (concat (scale_matrix m mx))) = Ok mx' /\
                  scale_matrix (scale_matrix m mx) mx' = scale_matrix m mx).
  { destruct (matrix_cases m) as [Hn | [[Hfin Hsig] | Hz]].
    - rewrite (scale_blank m mx (np_max_blank m mx Emax (or_intror Hn))).
      exists NaN. split.
      + apply np_max_nan. rewrite concat_map_map. apply (in_map (fun _ => CNaN)) in Hn.
        exact Hn.
      + rewrite scale_blank by (left; reflexivity). rewrite map_map.
        apply map_ext. intros row. apply map_map.
    - destruct (compression_auto dc rc m Hfin Hsig) as [M [HM [EM [Hb [Hin _]]]]].
      rewrite EM in Emax. injection Emax as <-.
      exists (Fin 1). split; [apply scaled_max_one; assumption | apply scale_one_any].
    - rewrite (scale_blank m mx (np_max_blank m mx Emax (or_introl Hz))).
      exists NaN. split.
      + apply np_max_nan. rewrite concat_map_map.
        destruct (concat m) as [| c r].
        * discriminate.
        * left. reflexivity.
      + rewrite scale_blank by (left; reflexivity). rewrite map_map.
        apply map_ext. intros row. apply map_map. }
  destruct Hid as [mx' [Emax' Hidem]].
  unfold dyn_range_compression at 1. rewrite Emax', Hidem.
  unfold dyn_range_compression. rewrite Emax. reflexivity.
Qed.

(** C8 (amended): without a supplied [dyn_range], for a rectangular matrix
    and a reference cell at least 5 cells from the first row and column
    (as [(30, 20)] and [(10, 20)] are): (a) for a non-empty matrix, when
    the window reaches past the last row or the last column, the
    estimation raises [IndexError]; (b) when the window fits, the samples
    are finite with a non-zero one, and all window samples are 0, no
    exception is raised, the effective dynamic range is [+inf] and the
    reference cell of the normalized matrix stays at [-inf] dB; (c) when
    the window fits in a non-empty matrix whose samples are all 0, or one of
    which is [nan], no exception is raised: the in-place division gives
    [nan+nanj] everywhere, the effective dynamic range is [nan] and every
    pixel is [nan]. *)
Theorem estimation_window_failures (dc rc : Z) (m : matrix) (n : nat) :
  Forall (fun row => length row = n) m -> (5 <= dc)%Z -> (5 <= rc)%Z ->
  (concat m <> [] ->
   ((Z.of_nat (length m) <= dc + 5)%Z \/ (Z.of_nat n <= rc + 5)%Z) ->
     snd (dyn_range_compression dc rc m None) = Err IndexError) /\
  (finite_matrix m -> has_signal m ->
   (dc + 5 < Z.of_nat (length m))%Z -> (rc + 5 < Z.of_nat n)%Z ->
   (forall wi wj, In wi window_offsets -> In wj window_offsets ->
      sq_mag (sample_at m (dc + wj) (rc + wi)) = 0) ->
   exists out, snd (dyn_range_compression dc rc m None) = Ok (out, PInf) /\
     index2 out dc rc = Ok NInf) /\
  (concat m <> [] ->
   (dc + 5 < Z.of_nat (length m))%Z -> (rc + 5 < Z.of_nat n)%Z ->
   ((forall c, In c (concat m) -> c = CFin 0 0) \/ In CNaN (concat m)) ->
   snd (dyn_range_compression dc rc m None) = Ok (map (map (fun _ => NaN)) m, NaN)).
Proof.
  intros Hrows Hdc Hrc. split; [| split].
  - intros Hne Hout.
    destruct (np_max (map cabs (concat m))) as [mx |] eqn:Emax.
    2: { destruct (concat m) as [| c r]; [congruence | discriminate]. }
    unfold dyn_range_compression. rewrite Emax. cbn [snd].
    rewrite (noise_loop_out_of_bounds (scale_matrix m mx) n dc rc);
      [reflexivity | apply scale_rows; exact Hrows | exact Hdc | exact Hrc |].
    unfold scale_matrix. rewrite length_map. exact Hout.
  - intros Hfin Hsig Hd2 Hr2 Hz.
    destruct (compression_auto dc rc m Hfin Hsig) as [M [HM [Emax _]]].
    destruct (normalize_db_peak (scale_matrix m (Fin M)) PInf
                (scaled_finite m M HM Hfin) (scaled_signal m M HM Hsig))
      as [b [_ [_ Eo]]].
    exists (clamp PInf (shift (Fin b) (to_db (scale_matrix m (Fin M))))).
    split.
    + unfold dyn_range_compression. rewrite Emax. cbn [snd].
      rewrite (noise_loop_window m M n dc rc HM Hfin Hrows Hdc Hd2 Hrc Hr2).
      rewrite sum_zero.
      2: { intros wi Hwi. apply sum_zero. intros wj Hwj.
           rewrite (Hz wi wj Hwi Hwj). unfold Rdiv. ring. }
      cbn [bind ext_div_pos].
      replace (0 / IZR 121) with 0 by (unfold Rdiv; ring).
      rewrite log10_zero. cbn [ext_scale].
      split_ifs; try lra. rewrite Eo. reflexivity.
    + unfold clamp, shift, to_db. rewrite !index2_map.
      rewrite (index2_scale m M n dc rc Hrows) by lia. cbn [bind].
      unfold finite_matrix in Hfin. rewrite Forall_forall in Hfin.
      destruct (Hfin _ (sample_at_in m n dc rc Hrows ltac:(lia) ltac:(lia)))
        as [x [y Exy]].
      assert (H0 : x * x + y * y = 0).
      { pose proof (Hz 0%Z 0%Z ltac:(cbn; tauto) ltac:(cbn; tauto)) as H.
        rewrite !Z.add_0_r, Exy in H. exact H. }
      rewrite Exy, cdiv_pos by exact HM.
      rewrite db_zero by (rewrite scaled_sq, H0 by exact HM; unfold Rdiv; ring).
      reflexivity.
  - intros Hne Hd2 Hr2 Hc.
    rewrite (compression_blank dc rc m n Hrows Hne Hdc Hd2 Hrc Hr2 Hc). reflexivity.
Qed.

Lemma quiet_window_finite : finite_matrix quiet_window.
Proof.
  unfold finite_matrix, quiet_window. apply Forall_forall. intros c Hc.
  apply in_concat in Hc as [row [Hr Hc]]. apply in_app_or in Hr as [Hr | [<- | []]].
  - apply repeat_spec in Hr. subst row. apply repeat_spec in Hc. subst c. eauto.
  - apply repeat_spec in Hc. subst c. eauto.
Qed.

Lemma quiet_window_signal : has_signal quiet_window.
Proof.
  exists 1, 0. split; [| lra]. unfold quiet_window. apply in_concat.
  exists (repeat (CFin 1 0) 12). split; [| left; reflexivity].
  apply in_or_app. right. left. reflexivity.
Qed.

Lemma quiet_window_rows : Forall (fun row => length row = 12%nat) quiet_window.
Proof.
  unfold quiet_window. apply Forall_app. split; [| repeat constructor].
  apply Forall_forall. intros row Hr. apply repeat_spec in Hr. subst row.
  apply repeat_length.
Qed.

Lemma quiet_window_zero (wi wj : Z) :
  In wi window_offsets -> In wj window_offsets ->
  sq_mag (sample_at quiet_window (5 + wj) (5 + wi)) = 0.
Proof.
  intros Hi Hj. apply window_offsets_bounds in Hi, Hj.
  unfold sample_at, quiet_window.
  rewrite app_nth1 by (rewrite repeat_length; lia).
  rewrite nth_repeat_lt by lia. rewrite nth_repeat_lt by lia.
  cbn. ring.
Qed.

(** A witness for C8: the one-sample matrix [[1]] (window past the end),
    [quiet_window] (window of zeros) and the [11 x 11] zero matrix, all with
    reference cell [(5, 5)]. *)
Lemma estimation_window_failures_witness :
  snd (dyn_range_compression 5 5 (ones 1 1) None) = Err IndexError /\
  (exists out, snd (dyn_range_compression 5 5 quiet_window None) = Ok (out, PInf) /\
     index2 out 5 5 = Ok NInf) /\
  snd (dyn_range_compression 5 5 (repeat (repeat (CFin 0 0) 11) 11) None)
    = Ok (map (map (fun _ => NaN)) (repeat (repeat (CFin 0 0) 11) 11), NaN).
Proof.
  split; [| split].
  - apply (proj1 (estimation_window_failures 5 5 (ones 1 1) 1 (ones_rows 1 1)
             ltac:(lia) ltac:(lia))).
    + cbn. discriminate.
    + left. rewrite ones_length. cbn. lia.
  - apply (proj1 (proj2 (estimation_window_failures 5 5 quiet_window 12
             quiet_window_rows ltac:(lia) ltac:(lia)))).
    + exact quiet_window_finite.
    + exact quiet_window_signal.
    + cbn. lia.
    + cbn. lia.
    + apply quiet_window_zero.
  - apply (proj2 (proj2 (estimation_window_failures 5 5
             (repeat (repeat (CFin 0 0) 11) 11) 11 ltac:(apply Forall_forall;
               intros row Hr; apply repeat_spec in Hr; subst row; apply repeat_length)
             ltac:(lia) ltac:(lia)))).
    + cbn. discriminate.
    + rewrite repeat_length. cbn. lia.
    + cbn. lia.
    + left. intros c Hc. apply in_concat in Hc as [row [Hr Hc]].
      apply repeat_spec in Hr. subst row. apply repeat_spec in Hc. exact Hc.
Defined.

(** C9 (amended): only the estimating branch writes to the caller's
    matrix.  Without a supplied [dyn_range], [export_rd_matrix_img] and
    [plot_rd_matrix] leave the caller's matrix divided by its largest
    magnitude [mx] (as returned by [np.max]; an empty matrix is left as
    it was).  When the samples are finite with a non-zero one, [mx] is a
    positive float and the largest magnitude becomes 1; when [mx = 1] the
    values are unchanged; when every sample is 0, or one is [nan], every
    sample becomes [nan+nanj].  With a supplied [dyn_range], and in both
    slice plots, the caller's matrix is left as it was. *)
Theorem caller_matrix_scaled_only_when_estimating (m : matrix) (d : R)
  (fs max_Doppler : option R) (fig : option figure) (b f : pynum) :
  (exists mx,
     (concat m <> [] -> np_max (map cabs (concat m)) = Ok mx) /\
     rd_after (export_rd_matrix_img m None) = scale_matrix m mx /\
     rd_after (plot_rd_matrix m None fs max_Doppler) = scale_matrix m mx /\
     (finite_matrix m -> has_signal m ->
        exists M, mx = Fin M /\ 0 < M /\
          np_max (map cabs (concat (scale_matrix m mx))) = Ok (Fin 1)) /\
     (mx = Fin 1 -> scale_matrix m mx = m) /\
     ((forall c, In c (concat m) -> c = CFin 0 0) \/ In CNaN (concat m) ->
        scale_matrix m mx = map (map (fun _ => CNaN)) m)) /\
  rd_after (export_rd_matrix_img m (Some d)) = m /\
  rd_after (plot_rd_matrix m (Some d) fs max_Doppler) = m /\
  rd_after (plot_Doppler_slice m b fs max_Doppler fig) = m /\
  rd_after (plot_range_slice m f fs max_Doppler fig) = m.
Proof.
  split; [| split; [| split; [| split]]].
  - rewrite export_after, plot_after.
    destruct (np_max (map cabs (concat m))) as [mx | e] eqn:Emax.
    + exists mx.
      assert (Hf : forall dc rc, fst (dyn_range_compression dc rc m None) = scale_matrix m mx)
        by (intros dc rc; unfold dyn_range_compression; rewrite Emax; reflexivity).
      rewrite !Hf. split; [intros _; reflexivity |].
      split; [reflexivity | split; [reflexivity | split; [| split]]].
      * intros Hfin Hsig.
        destruct (compression_auto 30 20 m Hfin Hsig) as [M [HM [EM [Hb [Hin _]]]]].
        rewrite EM in Emax. injection Emax as <-.
        exists M. split; [reflexivity | split; [exact HM |]].
        apply scaled_max_one; assumption.
      * intros ->. apply scale_one_any.
      * intros Hc. apply scale_blank, (np_max_blank m mx Emax Hc).
    + assert (Hnil : concat m = []).
      { destruct (concat m) as [| c r]; [reflexivity | discriminate]. }
      exists NaN.
      assert (Hf : forall dc rc, fst (dyn_range_compression dc rc m None) = scale_matrix m NaN).
      { intros dc rc. unfold dyn_range_compression. rewrite Emax. cbn [fst].
        unfold scale_matrix. symmetry. apply map_map_nil, Hnil. }
      rewrite !Hf. split; [intros Hne; contradiction |].
      split; [reflexivity | split; [reflexivity | split; [| split]]].
      * intros _ [x [y [Hin _]]]. rewrite Hnil in Hin. destruct Hin.
      * discriminate.
      * intros _. apply scale_blank. left. reflexivity.
  - rewrite export_after. reflexivity.
  - rewrite plot_after. reflexivity.
  - apply doppler_slice_keeps.
  - apply range_slice_keeps.
Qed.

(** A witness for C9: the [2 x 3] matrix of ones (largest magnitude 1) and
    the [1 x 2] zero matrix, [dyn_range = 30], bins 0. *)
Lemma caller_matrix_scaled_only_when_estimating_witness :
  (exists mx, np_max (map cabs (concat (ones 2 3))) = Ok mx /\
     rd_after (export_rd_matrix_img (ones 2 3) None) = scale_matrix (ones 2 3) mx /\
     np_max (map cabs (concat (scale_matrix (ones 2 3) mx))) = Ok (Fin 1) /\
     rd_after (export_rd_matrix_img (ones 2 3) None) = ones 2 3) /\
  (exists mx, rd_after (plot_rd_matrix [[CFin 0 0; CFin 0 0]] None None None)
       = scale_matrix [[CFin 0 0; CFin 0 0]] mx /\
     scale_matrix [[CFin 0 0; CFin 0 0]] mx = [[CNaN; CNaN]]) /\
  rd_after (plot_range_slice (ones 2 3) (PInt 0) None None None) = ones 2 3.
Proof.
  split; [| split].
  - destruct (caller_matrix_scaled_only_when_estimating (ones 2 3) 30 None None None
                (PInt 0) (PInt 0)) as [[mx [Emx [Ee [_ [Hsig [Hone _]]]]]] _].
    exists mx. split; [apply Emx; cbn; discriminate |]. split; [exact Ee |].
    destruct (Hsig (ones_finite 2 3) (ones_signal 2 3 ltac:(lia) ltac:(lia)))
      as [M [EM [_ H1]]].
    split; [exact H1 |].
    assert (EM1 : mx = Fin 1).
    { specialize (Emx ltac:(cbn; discriminate)).
      unfold ones in Emx. cbn [concat repeat app map np_max fold_left] in Emx.
      replace (cabs (CFin 1 0)) with (Fin 1) in Emx
        by (cbn; f_equal; rewrite Rmult_1_l, Rmult_0_l, Rplus_0_r; symmetry; apply sqrt_1).
      cbn [ext_max] in Emx. repeat rewrite (Rmax_left 1 1 (Rle_refl 1)) in Emx.
      injection Emx as <-. reflexivity. }
    rewrite Ee, Hone by exact EM1. reflexivity.
  - destruct (caller_matrix_scaled_only_when_estimating [[CFin 0 0; CFin 0 0]] 30 None None
                None (PInt 0) (PInt 0)) as [[mx [_ [_ [Ep [_ [_ Hz]]]]]] _].
    exists mx. split; [exact Ep |]. rewrite Hz; [reflexivity |].
    left. intros c Hc. cbn in Hc. destruct Hc as [<- | [<- | []]]; reflexivity.
  - apply (caller_matrix_scaled_only_when_estimating (ones 2 3) 30 None None None
             (PInt 0) (PInt 0)).
Defined.







(** * Further properties of RDTools.py *)

(** ** Helpers *)

Lemma export_ret (m : matrix) (dyn_range : option R) :
  ret (export_rd_matrix_img m dyn_range)
  = (p <- snd (dyn_range_compression 30 20 m dyn_range) ;; Ok (fst p)).
Proof.
  unfold export_rd_matrix_img. destruct (dyn_range_compression 30 20 m dyn_range).
  reflexivity.
Qed.

Lemma db_nan : db CNaN = NaN.
Proof. reflexivity. Qed.

Lemma normalize_db_shape (m : matrix) (dr : ext) (out : dmatrix) :
  normalize_db m dr = Ok out -> map (@length _) out = map (@length _) m.
Proof.
  unfold normalize_db. destruct (np_max _) as [mx |]; cbn; [| discriminate].
  intros H. injection H as <-. unfold clamp, shift, to_db. rewrite !map_map.
  apply map_ext. intros row. rewrite !length_map. reflexivity.
Qed.

Lemma compression_shape (dc rc : Z) (m : matrix) (dyn_range : option R)
  (out : dmatrix) (dr : ext) :
  snd (dyn_range_compression dc rc m dyn_range) = Ok (out, dr) ->
  map (@length _) out = map (@length _) m.
Proof.
  unfold dyn_range_compression. destruct dyn_range as [d |]; cbn [snd].
  - destruct (normalize_db m (Fin d)) as [o |] eqn:E; cbn; [| discriminate].
    intros H. injection H as <- <-. eapply normalize_db_shape. exact E.
  - destruct (np_max _) as [mx |]; cbn [snd bind]; [| discriminate].
    destruct (noise_loop (scale_matrix m mx) dc rc) as [[c nf] |]; cbn [bind];
      [| discriminate].
    destruct (normalize_db (scale_matrix m mx) _) as [o |] eqn:E; cbn [bind];
      [| discriminate].
    intros H. injection H as <- <-. apply normalize_db_shape in E. rewrite E.
    unfold scale_matrix. rewrite map_map. apply map_ext. intros row.
    apply length_map.
Qed.

Lemma ncols_shape {A B : Type} (a : list (list A)) (b : list (list B)) :
  map (@length _) a = map (@length _) b -> ncols a = ncols b.
Proof.
  destruct a as [| ra a], b as [| rb b]; cbn; try discriminate; [reflexivity |].
  intros H. injection H as H _. exact H.
Qed.

Lemma linspace_length (a b : R) (n : nat) : length (linspace a b n) = n.
Proof.
  destruct n as [| [| n]]; cbn; [reflexivity | reflexivity |].
  rewrite length_map, length_seq. reflexivity.
Qed.

Lemma linspace_ends (a b : R) (n : nat) :
  (2 <= n)%nat -> nth 0 (linspace a b n) 0 = a /\ nth (n - 1) (linspace a b n) 0 = b.
Proof.
  intros Hn. destruct n as [| [| n]]; [lia | lia |].
  unfold linspace.
  assert (HI : INR (S (S n) - 1) <> 0) by (apply not_0_INR; lia).
  split.
  - cbn [seq map nth]. cbn [INR]. field. exact HI.
  - set (f := fun i => a + INR i * (b - a) / INR (S (S n) - 1)).
    rewrite (nth_indep _ 0 (f 0%nat)) by (rewrite length_map, length_seq; lia).
    rewrite map_nth, seq_nth by lia. unfold f. rewrite Nat.add_0_l.
    field. exact HI.
Qed.

Lemma plot_ok (m : matrix) (dyn_range fs max_Doppler : option R) (out : dmatrix)
  (dr : ext) :
  (forall f, fs = Some f -> f <> 0) ->
  snd (dyn_range_compression 10 20 m dyn_range) = Ok (out, dr) ->
  exists x y, ret (plot_rd_matrix m dyn_range fs max_Doppler) = Ok [Heatmap x y out].
Proof.
  intros Hfs. unfold plot_rd_matrix.
  destruct (dyn_range_compression 10 20 m dyn_range) as [a r].
  cbn [snd]. intros ->. cbn [bind ret fst].
  destruct fs as [f |]; [destruct (Req_dec_T f 0) as [E |]; [exfalso; exact (Hfs f eq_refl E) |] |];
    cbn; eauto.
Qed.

Lemma plot_err (m : matrix) (dyn_range fs max_Doppler : option R) (e : pyexc) :
  snd (dyn_range_compression 10 20 m dyn_range) = Err e ->
  ret (plot_rd_matrix m dyn_range fs max_Doppler) = Err e.
Proof.
  unfold plot_rd_matrix. destruct (dyn_range_compression 10 20 m dyn_range) as [a r].
  cbn [snd]. intros ->. reflexivity.
Qed.

Lemma compression_empty (dc rc : Z) (m : matrix) (dyn_range : option R) :
  concat m = [] -> snd (dyn_range_compression dc rc m dyn_range) = Err ValueError.
Proof.
  intros H. unfold dyn_range_compression. destruct dyn_range as [d |].
  - cbn [snd]. unfold normalize_db, to_db. rewrite concat_map_map, H. reflexivity.
  - rewrite H. reflexivity.
Qed.

Lemma clamp_zero_flat (b : R) (v : ext) :
  below b v -> clamp_cell (Fin 0) (ext_sub v (Fin b)) = Fin 0.
Proof.
  intros [-> | [r [-> Hr]]]; unfold clamp_cell; cbn; split_ifs;
    rewrite ?Ropp_0; try reflexivity; try lra.
  f_equal. lra.
Qed.

Lemma nth_map_in {A B : Type} (f : A -> B) (l : list A) (k : nat) (d : B) (d' : A) :
  (k < length l)%nat -> nth k (map f l) d = f (nth k l d').
Proof.
  intros H. rewrite (nth_indep _ d (f d')) by (rewrite length_map; exact H).
  apply map_nth.
Qed.

Lemma arange_f_length (n : nat) : length (arange_f n) = n.
Proof. unfold arange_f. rewrite length_map. apply length_seq. Qed.

Lemma arange_f_nth (n k : nat) (d : R) : (k < n)%nat -> nth k (arange_f n) d = INR k.
Proof.
  intros Hk. unfold arange_f.
  rewrite (nth_indep _ d (INR 0)) by (rewrite length_map, length_seq; exact Hk).
  rewrite map_nth, seq_nth by exact Hk. reflexivity.
Qed.

(** ** The compression block and the heatmap *)

(** a matrix without samples (no rows, or only empty rows) makes
    [export_rd_matrix_img] and [plot_rd_matrix] raise [ValueError]
    ([np.max] of an empty array), with or without [dyn_range]. *)
Theorem empty_matrix_raises (m : matrix) (dyn_range fs max_Doppler : option R) :
  concat m = [] ->
  ret (export_rd_matrix_img m dyn_range) = Err ValueError /\
  ret (plot_rd_matrix m dyn_range fs max_Doppler) = Err ValueError.
Proof.
  intros H. split.
  - rewrite export_ret, compression_empty by exact H. reflexivity.
  - apply plot_err, compression_empty, H.
Qed.

Lemma empty_matrix_raises_witness :
  ret (export_rd_matrix_img [[]; []] None) = Err ValueError /\
  ret (plot_rd_matrix [[]; []] None None None) = Err ValueError.
Proof. apply (empty_matrix_raises [[]; []] None None None). reflexivity. Defined.

(** with a supplied [dyn_range], a single [nan] sample turns every
    pixel of the image of [export_rd_matrix_img] and of the heatmap of
    [plot_rd_matrix] (given a non-zero [fs], if any) into [nan] ([np.max]
    propagates [nan] into the peak subtraction). *)
Theorem nan_sample_blanks_image (m : matrix) (d : R) (fs max_Doppler : option R) :
  (forall f, fs = Some f -> f <> 0) -> In CNaN (concat m) ->
  ret (export_rd_matrix_img m (Some d)) = Ok (map (map (fun _ => NaN)) m) /\
  exists x y, ret (plot_rd_matrix m (Some d) fs max_Doppler)
              = Ok [Heatmap x y (map (map (fun _ => NaN)) m)].
Proof.
  intros Hfs H. split.
  - rewrite export_ret. cbn [dyn_range_compression snd].
    rewrite normalize_db_nan by exact H. reflexivity.
  - apply (plot_ok m (Some d) fs max_Doppler _ (Fin d) Hfs).
    cbn [dyn_range_compression snd].
    rewrite normalize_db_nan by exact H. reflexivity.
Qed.

Lemma nan_sample_blanks_image_witness :
  ret (export_rd_matrix_img [[CFin 1 0; CNaN]] (Some 40))
    = Ok (map (map (fun _ => NaN)) [[CFin 1 0; CNaN]]) /\
  exists x y, ret (plot_rd_matrix [[CFin 1 0; CNaN]] (Some 40) (Some 2000000) None)
              = Ok [Heatmap x y (map (map (fun _ => NaN)) [[CFin 1 0; CNaN]])].
Proof.
  apply (nan_sample_blanks_image [[CFin 1 0; CNaN]] 40 (Some 2000000) None).
  - intros f H. injection H as <-. lra.
  - cbn. tauto.
Defined.

(** with [dyn_range = 0], every pixel of the image of a matrix of
    finite samples with a non-zero sample is 0 dB, in [export_rd_matrix_img]
    and in the heatmap of [plot_rd_matrix] (given a non-zero [fs], if any):
    the floor clamp lifts everything below the peak to the peak. *)
Theorem zero_dyn_range_flat_image (m : matrix) (fs max_Doppler : option R) :
  (forall f, fs = Some f -> f <> 0) -> finite_matrix m -> has_signal m ->
  ret (export_rd_matrix_img m (Some 0)) = Ok (map (map (fun _ => Fin 0)) m) /\
  exists x y, ret (plot_rd_matrix m (Some 0) fs max_Doppler)
              = Ok [Heatmap x y (map (map (fun _ => Fin 0)) m)].
Proof.
  intros Hfs Hfin Hsig.
  destruct (normalize_db_peak m (Fin 0) Hfin Hsig) as [b [Hb [_ Eo]]].
  assert (Eflat : clamp (Fin 0) (shift (Fin b) (to_db m)) = map (map (fun _ => Fin 0)) m).
  { unfold clamp, shift, to_db. rewrite !map_map. apply map_ext_in. intros row Hrow.
    rewrite !map_map. apply map_ext_in. intros c Hc.
    apply clamp_zero_flat. rewrite Forall_forall in Hb. apply Hb.
    unfold to_db. rewrite concat_map_map. apply in_map. apply in_concat. eauto. }
  rewrite Eflat in Eo. split.
  - rewrite export_ret. cbn [dyn_range_compression snd]. rewrite Eo. reflexivity.
  - apply (plot_ok m (Some 0) fs max_Doppler _ (Fin 0) Hfs).
    cbn [dyn_range_compression snd].
    rewrite Eo. reflexivity.
Qed.

Lemma zero_dyn_range_flat_image_witness :
  ret (export_rd_matrix_img (ones 2 3) (Some 0))
    = Ok (map (map (fun _ => Fin 0)) (ones 2 3)) /\
  exists x y, ret (plot_rd_matrix (ones 2 3) (Some 0) (Some 2000000) None)
              = Ok [Heatmap x y (map (map (fun _ => Fin 0)) (ones 2 3))].
Proof.
  apply (zero_dyn_range_flat_image (ones 2 3) (Some 2000000) None).
  - intros f H. injection H as <-. lra.
  - apply ones_finite.
  - apply ones_signal; lia.
Defined.

(** the heatmap of [plot_rd_matrix] has the shape of the input
    matrix, one x value per range column and one y value per Doppler row;
    with [fs] the x value of column [k] is [k * c / fs / 1000] km, and with
    [max_Doppler] the y values run from [-max_Doppler] to [max_Doppler]. *)
Theorem heatmap_axes_match (m : matrix) (dyn_range fs max_Doppler : option R) :
  (forall f, fs = Some f -> 0 < f) ->
  match ret (plot_rd_matrix m dyn_range fs max_Doppler) with
  | Ok [Heatmap x y z] =>
      map (@length _) z = map (@length _) m /\
      length x = ncols m /\ length y = length m /\
      (forall f, fs = Some f -> forall k, (k < ncols m)%nat ->
         nth k x 0 = INR k * (c_light / f / 10 ^ 3)) /\
      (forall v, max_Doppler = Some v -> (2 <= length m)%nat ->
         nth 0 y 0 = - v /\ nth (length m - 1) y 0 = v)
  | Ok _ => False
  | Err _ => True
  end.
Proof.
  intros _. unfold plot_rd_matrix.
  destruct (dyn_range_compression 10 20 m dyn_range) as [after [[out dr] | e]] eqn:E;
    cbn [ret bind fst]; [| exact I].
  assert (Hs : map (@length _) out = map (@length _) m).
  { apply (compression_shape 10 20 m dyn_range out dr). rewrite E. reflexivity. }
  assert (Hc : ncols out = ncols m) by (apply ncols_shape, Hs).
  assert (Hr : nrows out = length m).
  { unfold nrows. rewrite <- (length_map (@length _) out), Hs. apply length_map. }
  destruct fs as [f0 |].
  - destruct (Req_dec_T f0 0) as [| Hf0]; cbn [bind]; [exact I |].
    rewrite Hc, Hr. split; [exact Hs | split; [| split; [| split]]].
    + rewrite length_map. apply arange_f_length.
    + destruct max_Doppler; [apply linspace_length | apply arange_f_length].
    + intros f Ef k Hk. injection Ef as <-.
      rewrite (nth_map_in _ _ _ _ 0) by (rewrite arange_f_length; exact Hk).
      rewrite arange_f_nth by exact Hk. reflexivity.
    + intros v -> H2. apply linspace_ends, H2.
  - cbn [bind]. rewrite Hc, Hr. split; [exact Hs | split; [| split; [| split]]].
    + apply arange_f_length.
    + destruct max_Doppler; [apply linspace_length | apply arange_f_length].
    + intros f Ef. discriminate.
    + intros v -> H2. apply linspace_ends, H2.
Qed.

Lemma heatmap_axes_match_witness :
  match ret (plot_rd_matrix (ones 2 3) (Some 30) (Some 2000000) (Some 100)) with
  | Ok [Heatmap x y z] =>
      map (@length _) z = map (@length _) (ones 2 3) /\
      length x = ncols (ones 2 3) /\ length y = length (ones 2 3) /\
      (forall f, Some 2000000 = Some f -> forall k, (k < ncols (ones 2 3))%nat ->
         nth k x 0 = INR k * (c_light / f / 10 ^ 3)) /\
      (forall v, Some 100 = Some v -> (2 <= length (ones 2 3))%nat ->
         nth 0 y 0 = - v /\ nth (length (ones 2 3) - 1) y 0 = v)
  | Ok _ => False
  | Err _ => True
  end.
Proof.
  apply (heatmap_axes_match (ones 2 3) (Some 30) (Some 2000000) (Some 100)).
  intros f H. injection H as <-. lra.
Defined.

(** the dynamic range estimated by the compression block (lines
    90-103 and 223-236) for a matrix of finite samples with a non-zero
    sample is never negative: it is [+inf] or a float [>= 0], since every
    sample of the scaled matrix has magnitude at most 1. *)
Theorem estimated_dyn_range_nonneg (dc rc : Z) (m : matrix) :
  finite_matrix m -> has_signal m ->
  match snd (dyn_range_compression dc rc m None) with
  | Ok (_, dr) => dr = PInf \/ exists d, dr = Fin d /\ 0 <= d
  | Err _ => True
  end.
Proof.
  intros Hfin Hsig.
  destruct (compression_auto dc rc m Hfin Hsig) as [M [_ [_ [_ [_ [_ Hok]]]]]].
  destruct (snd (dyn_range_compression dc rc m None)) as [[out dr] | e];
    [| exact I].
  apply (Hok out dr). reflexivity.
Qed.

Lemma estimated_dyn_range_nonneg_witness :
  match snd (dyn_range_compression 30 20 (ones 36 26) None) with
  | Ok (_, dr) => dr = PInf \/ exists d, dr = Fin d /\ 0 <= d
  | Err _ => True
  end.
Proof.
  apply (estimated_dyn_range_nonneg 30 20 (ones 36 26) (ones_finite 36 26)).
  apply ones_signal; lia.
Defined.

(** ** Gain *)

Lemma concat_gain (k : R) (m : matrix) : concat (gain k m) = map (cmul k) (concat m).
Proof. unfold gain. apply concat_map_map. Qed.

Lemma in_concat_of {A : Type} (m : list (list A)) (row : list A) (c : A) :
  In row m -> In c row -> In c (concat m).
Proof. intros H1 H2. apply in_concat. eauto. Qed.

Lemma cabs_gain (k x y : R) :
  0 < k -> cabs (cmul k (CFin x y)) = Fin (k * sqrt (x * x + y * y)).
Proof.
  intros Hk. cbn. f_equal.
  replace (k * x * (k * x) + k * y * (k * y)) with ((k * k) * (x * x + y * y)) by ring.
  rewrite sqrt_mult by nra. rewrite sqrt_square by lra. reflexivity.
Qed.

Lemma gain_max_magnitude (k M : R) (m : matrix) :
  0 < k -> finite_matrix m ->
  Forall (below M) (map cabs (concat m)) -> In (Fin M) (map cabs (concat m)) ->
  np_max (map cabs (concat (gain k m))) = Ok (Fin (k * M)).
Proof.
  intros Hk Hfin Hb Hin. unfold finite_matrix in Hfin. rewrite Forall_forall in Hfin.
  rewrite concat_gain, map_map. apply np_max_attained.
  - apply Forall_forall. intros v Hv. apply in_map_iff in Hv as [c [<- Hc]].
    destruct (Hfin c Hc) as [x [y ->]]. rewrite cabs_gain by exact Hk.
    rewrite Forall_forall in Hb. destruct (Hb _ (in_map cabs _ _ Hc)) as [E | [r [E Hr]]];
      [discriminate |].
    cbn in E. injection E as E. right. eexists. split; [reflexivity |].
    rewrite E. apply Rmult_le_compat_l; lra.
  - apply in_map_iff in Hin as [c [E Hc]]. destruct (Hfin c Hc) as [x [y ->]].
    cbn in E. injection E as E. apply in_map_iff. exists (CFin x y).
    split; [| exact Hc]. rewrite cabs_gain by exact Hk. rewrite E. reflexivity.
Qed.

Lemma gain_scaled (k M : R) (m : matrix) :
  0 < k -> 0 < M -> finite_matrix m ->
  scale_matrix (gain k m) (Fin (k * M)) = scale_matrix m (Fin M).
Proof.
  intros Hk HM Hfin. unfold finite_matrix in Hfin. rewrite Forall_forall in Hfin.
  unfold scale_matrix, gain. rewrite map_map. apply map_ext_in. intros row Hrow.
  rewrite map_map. apply map_ext_in. intros c Hc.
  destruct (Hfin c (in_concat_of m row c Hrow Hc)) as [x [y ->]].
  cbn [cmul]. rewrite !cdiv_pos by nra. f_equal; field; lra.
Qed.

(** Two matrices with the same scaled matrix go through the estimating
    branch identically. *)
Lemma auto_same_scaled (dc rc : Z) (m1 m2 : matrix) (M1 M2 : R) :
  np_max (map cabs (concat m1)) = Ok (Fin M1) ->
  np_max (map cabs (concat m2)) = Ok (Fin M2) ->
  scale_matrix m1 (Fin M1) = scale_matrix m2 (Fin M2) ->
  dyn_range_compression dc rc m1 None = dyn_range_compression dc rc m2 None.
Proof.
  intros E1 E2 Es. unfold dyn_range_compression. rewrite E1, E2, Es. reflexivity.
Qed.

Lemma scale_one (m : matrix) : finite_matrix m -> scale_matrix m (Fin 1) = m.
Proof.
  intros Hfin. unfold finite_matrix in Hfin. rewrite Forall_forall in Hfin.
  unfold scale_matrix. rewrite <- (map_id m) at 2. apply map_ext_in. intros row Hrow.
  rewrite <- (map_id row) at 2. apply map_ext_in. intros c Hc.
  destruct (Hfin c (in_concat_of m row c Hrow Hc)) as [x [y ->]].
  rewrite cdiv_pos by lra. f_equal; field.
Qed.

Definition fin_or_ninf (v : ext) : Prop := v = NInf \/ exists r, v = Fin r.

Lemma db_gain (k : R) (c : cell) :
  0 < k -> (exists x y, c = CFin x y) ->
  db (cmul k c) = ext_add (db c) (Fin (10 * (ln (k * k) / ln 10))).
Proof.
  intros Hk [x [y ->]]. cbn [cmul].
  assert (H : 0 <= x * x + y * y) by nra.
  destruct (Rle_lt_or_eq_dec _ _ H) as [Hp | Hz].
  - assert (Hkk : 0 < k * k) by nra.
    rewrite (db_pos x y Hp). unfold db. rewrite sq_cabs.
    replace (k * x * (k * x) + k * y * (k * y)) with ((k * k) * (x * x + y * y)) by ring.
    rewrite log10_pos by (apply Rmult_lt_0_compat; assumption).
    cbn. f_equal. rewrite ln_mult by assumption. pose proof ln10_pos. field. lra.
  - rewrite !db_zero by nra. reflexivity.
Qed.

Lemma ext_max_shift (K : R) (u v : ext) :
  fin_or_ninf u -> fin_or_ninf v ->
  ext_max (ext_add u (Fin K)) (ext_add v (Fin K)) = ext_add (ext_max u v) (Fin K).
Proof.
  intros [-> | [a ->]] [-> | [b ->]]; cbn; try reflexivity.
  f_equal. unfold Rmax. destruct (Rle_dec (a + K) (b + K)), (Rle_dec a b); lra.
Qed.

Lemma ext_max_fin_or_ninf (u v : ext) :
  fin_or_ninf u -> fin_or_ninf v -> fin_or_ninf (ext_max u v).
Proof.
  intros [-> | [a ->]] [-> | [b ->]]; cbn; unfold fin_or_ninf; eauto.
Qed.

Lemma fold_max_shift (K : R) (l : list ext) (acc : ext) :
  fin_or_ninf acc -> Forall fin_or_ninf l ->
  fold_left ext_max (map (fun v => ext_add v (Fin K)) l) (ext_add acc (Fin K))
  = ext_add (fold_left ext_max l acc) (Fin K) /\ fin_or_ninf (fold_left ext_max l acc).
Proof.
  revert acc. induction l as [| x r IH]; intros acc Ha Hl; cbn; [auto |].
  inversion Hl as [| ? ? Hx Hr]; subst.
  rewrite ext_max_shift by assumption.
  apply IH; [apply ext_max_fin_or_ninf |]; assumption.
Qed.

Lemma ext_sub_shift (K : R) (v mx : ext) :
  fin_or_ninf v -> fin_or_ninf mx ->
  ext_sub (ext_add v (Fin K)) (ext_add mx (Fin K)) = ext_sub v mx.
Proof.
  intros [-> | [a ->]] [-> | [b ->]]; cbn; try reflexivity.
  f_equal. ring.
Qed.

(** For a matrix of finite samples, [normalize_db] ignores a positive
    gain. *)
Lemma normalize_db_gain (k : R) (m : matrix) (dr : ext) :
  0 < k -> finite_matrix m -> normalize_db (gain k m) dr = normalize_db m dr.
Proof.
  intros Hk Hfin. set (K := 10 * (ln (k * k) / ln 10)).
  assert (Hf : forall c, In c (concat m) -> exists x y, c = CFin x y)
    by (unfold finite_matrix in Hfin; rewrite Forall_forall in Hfin; exact Hfin).
  assert (Edb : to_db (gain k m) = map (map (fun v => ext_add v (Fin K))) (to_db m)).
  { unfold to_db, gain. rewrite !map_map. apply map_ext_in. intros row Hrow.
    rewrite !map_map. apply map_ext_in. intros c Hc.
    apply db_gain; [exact Hk | apply Hf; apply (in_concat_of m row); assumption]. }
  assert (Hall : Forall fin_or_ninf (concat (to_db m))).
  { unfold to_db. rewrite concat_map_map. apply Forall_forall. intros v Hv.
    apply in_map_iff in Hv as [c [<- Hc]]. destruct (Hf c Hc) as [x [y ->]].
    apply db_fin_or_ninf. }
  unfold normalize_db. rewrite Edb, concat_map_map.
  destruct (concat (to_db m)) as [| x r] eqn:E; [reflexivity |].
  inversion Hall as [| ? ? Hx Hr]; subst.
  cbn [map np_max bind].
  destruct (fold_max_shift K r x Hx Hr) as [-> Hmx]. f_equal.
  unfold clamp, shift. rewrite !map_map. apply map_ext_in. intros row Hrow.
  rewrite !map_map. apply map_ext_in. intros v Hv. rewrite ext_sub_shift; [reflexivity | |].
  - rewrite Forall_forall in Hall. apply Hall. rewrite <- E.
    apply (in_concat_of (to_db m) row); assumption.
  - exact Hmx.
Qed.

(** with a supplied [dyn_range], multiplying a matrix of finite
    samples by a positive gain [k] does not change the image of
    [export_rd_matrix_img] or the figure of [plot_rd_matrix]: the gain adds
    the same [20 * log10 k] dB to every pixel and the peak subtraction
    removes it. *)
Theorem explicit_range_gain_invariant (k d : R) (m : matrix) (fs max_Doppler : option R) :
  0 < k -> finite_matrix m ->
  ret (export_rd_matrix_img (gain k m) (Some d)) = ret (export_rd_matrix_img m (Some d)) /\
  ret (plot_rd_matrix (gain k m) (Some d) fs max_Doppler)
    = ret (plot_rd_matrix m (Some d) fs max_Doppler).
Proof.
  intros Hk Hfin.
  assert (E : forall dc rc, dyn_range_compression dc rc (gain k m) (Some d)
                            = (gain k m, snd (dyn_range_compression dc rc m (Some d)))).
  { intros dc rc. cbn [dyn_range_compression snd].
    rewrite normalize_db_gain by assumption. reflexivity. }
  split.
  - unfold export_rd_matrix_img. rewrite E.
    destruct (dyn_range_compression 30 20 m (Some d)). reflexivity.
  - unfold plot_rd_matrix. rewrite E.
    destruct (dyn_range_compression 10 20 m (Some d)). reflexivity.
Qed.

Lemma explicit_range_gain_invariant_witness :
  ret (export_rd_matrix_img (gain 3 (ones 2 2)) (Some 30))
    = ret (export_rd_matrix_img (ones 2 2) (Some 30)) /\
  ret (plot_rd_matrix (gain 3 (ones 2 2)) (Some 30) None None)
    = ret (plot_rd_matrix (ones 2 2) (Some 30) None None).
Proof.
  apply (explicit_range_gain_invariant 3 30 (ones 2 2) None None); [lra |].
  apply ones_finite.
Defined.

(** without [dyn_range], multiplying a matrix of finite samples with
    a non-zero sample by a positive gain [k] changes nothing at all in
    [export_rd_matrix_img] and [plot_rd_matrix]: same result, same printed
    output, and the caller's array ends with the same values, since the
    estimating branch first divides by the largest magnitude. *)
Theorem estimating_branch_gain_invariant (k : R) (m : matrix) (fs max_Doppler : option R) :
  0 < k -> finite_matrix m -> has_signal m ->
  export_rd_matrix_img (gain k m) None = export_rd_matrix_img m None /\
  plot_rd_matrix (gain k m) None fs max_Doppler = plot_rd_matrix m None fs max_Doppler.
Proof.
  intros Hk Hfin Hsig.
  destruct (max_magnitude m Hfin Hsig) as [M [HM [Emax [Hb Hin]]]].
  assert (E : forall dc rc, dyn_range_compression dc rc (gain k m) None
                            = dyn_range_compression dc rc m None).
  { intros dc rc. apply (auto_same_scaled dc rc _ _ (k * M) M);
      [apply gain_max_magnitude | exact Emax | apply gain_scaled]; assumption. }
  split; [unfold export_rd_matrix_img | unfold plot_rd_matrix]; rewrite E; reflexivity.
Qed.

Lemma estimating_branch_gain_invariant_witness :
  export_rd_matrix_img (gain 3 (ones 2 2)) None = export_rd_matrix_img (ones 2 2) None /\
  plot_rd_matrix (gain 3 (ones 2 2)) None None None = plot_rd_matrix (ones 2 2) None None None.
Proof.
  apply (estimating_branch_gain_invariant 3 (ones 2 2) None None); [lra | apply ones_finite |].
  apply ones_signal; lia.
Defined.

(** without [dyn_range], calling [export_rd_matrix_img] (or
    [plot_rd_matrix]) a second time on the caller's array left by a first
    call, for any matrix, has exactly the same effect as the first call:
    same result or exception, same output, same array afterwards.  The
    array left behind has largest magnitude 1, or is all [nan+nanj], or is
    empty. *)
Theorem estimating_branch_repeat_call (m : matrix) (fs max_Doppler : option R) :
  export_rd_matrix_img (rd_after (export_rd_matrix_img m None)) None
    = export_rd_matrix_img m None /\
  plot_rd_matrix (rd_after (plot_rd_matrix m None fs max_Doppler)) None fs max_Doppler
    = plot_rd_matrix m None fs max_Doppler.
Proof.
  split.
  - rewrite export_after. unfold export_rd_matrix_img at 1.
    rewrite compression_repeat. reflexivity.
  - rewrite plot_after. unfold plot_rd_matrix at 1.
    rewrite compression_repeat. reflexivity.
Qed.

(** ** Order of the pixels *)

Lemma ge_fin (a b : R) : ext_ge (Fin a) (Fin b) = true <-> b <= a.
Proof.
  cbn. destruct (Rle_dec b a); split; intros H; try reflexivity; try discriminate;
    lra.
Qed.

Lemma db_mono (x1 y1 x2 y2 : R) :
  x1 * x1 + y1 * y1 <= x2 * x2 + y2 * y2 ->
  ext_ge (db (CFin x2 y2)) (db (CFin x1 y1)) = true.
Proof.
  intros H. assert (H1 : 0 <= x1 * x1 + y1 * y1) by nra.
  destruct (Rle_lt_or_eq_dec _ _ H1) as [Hp | Hz].
  - rewrite !db_pos by lra. apply ge_fin. pose proof ln10_pos.
    apply Rmult_le_compat_l; [lra |]. unfold Rdiv.
    apply Rmult_le_compat_r; [left; apply Rinv_0_lt_compat; lra |].
    destruct (Rle_lt_or_eq_dec _ _ H) as [Hl | He].
    + left. apply ln_increasing; assumption.
    + rewrite He. lra.
  - rewrite (db_zero x1 y1) by lra.
    destruct (db_fin_or_ninf x2 y2) as [-> | [r ->]]; reflexivity.
Qed.

Lemma pixel_fin_or_ninf (b : R) (v : ext) :
  fin_or_ninf v -> fin_or_ninf (ext_sub v (Fin b)).
Proof. intros [-> | [a ->]]; cbn; unfold fin_or_ninf; eauto. Qed.

Lemma sub_mono (b : R) (u v : ext) :
  fin_or_ninf u -> fin_or_ninf v -> ext_ge v u = true ->
  ext_ge (ext_sub v (Fin b)) (ext_sub u (Fin b)) = true.
Proof.
  intros [-> | [a ->]] [-> | [c ->]] H; cbn in *; try reflexivity; try discriminate.
  apply ge_fin. apply ge_fin in H. lra.
Qed.

Lemma clamp_mono (dr u v : ext) :
  (dr = PInf \/ exists d, dr = Fin d) ->
  fin_or_ninf u -> fin_or_ninf v -> ext_ge v u = true ->
  ext_ge (clamp_cell dr v) (clamp_cell dr u) = true.
Proof.
  intros [-> | [d ->]] [-> | [a ->]] [-> | [c ->]] H; unfold clamp_cell; cbn in *;
    try reflexivity; try discriminate; split_ifs; try reflexivity;
    try discriminate; try (apply ge_fin in H); try (apply ge_fin); lra.
Qed.

Lemma pixel_mono (dr : ext) (b x1 y1 x2 y2 : R) :
  (dr = PInf \/ exists d, dr = Fin d) ->
  x1 * x1 + y1 * y1 <= x2 * x2 + y2 * y2 ->
  ext_ge (clamp_cell dr (ext_sub (db (CFin x2 y2)) (Fin b)))
         (clamp_cell dr (ext_sub (db (CFin x1 y1)) (Fin b))) = true.
Proof.
  intros Hdr H. apply clamp_mono; [exact Hdr | | |].
  - apply pixel_fin_or_ninf, db_fin_or_ninf.
  - apply pixel_fin_or_ninf, db_fin_or_ninf.
  - apply sub_mono; [apply db_fin_or_ninf | apply db_fin_or_ninf | apply db_mono, H].
Qed.

(** the compression block of [export_rd_matrix_img] and
    [plot_rd_matrix] (lines 90-112 and 223-245) maps each sample on its own
    through one function [g] that never lets a weaker sample get a brighter
    pixel: if [|a| <= |b|] then [g a <= g b].  For a matrix of finite
    samples with a non-zero sample, any [dyn_range], whenever the block
    returns. *)
Theorem normalization_preserves_order (dc rc : Z) (m : matrix) (dyn_range : option R) :
  finite_matrix m -> has_signal m ->
  match snd (dyn_range_compression dc rc m dyn_range) with
  | Ok (out, _) =>
      exists g : cell -> ext, out = map (map g) m /\
        forall x1 y1 x2 y2, x1 * x1 + y1 * y1 <= x2 * x2 + y2 * y2 ->
          ext_ge (g (CFin x2 y2)) (g (CFin x1 y1)) = true
  | Err _ => True
  end.
Proof.
  intros Hfin Hsig. destruct dyn_range as [d |].
  - destruct (normalize_db_peak m (Fin d) Hfin Hsig) as [b [_ [_ Eo]]].
    cbn [dyn_range_compression snd]. rewrite Eo. cbn [bind].
    exists (fun c => clamp_cell (Fin d) (ext_sub (db c) (Fin b))). split.
    + unfold clamp, shift, to_db. rewrite !map_map. apply map_ext. intros row.
      rewrite !map_map. reflexivity.
    + intros x1 y1 x2 y2 H. apply pixel_mono; [right; eauto | exact H].
  - destruct (compression_auto dc rc m Hfin Hsig) as [M [HM [_ [_ [_ [_ Hok]]]]]].
    destruct (snd (dyn_range_compression dc rc m None)) as [[out dr] | e] eqn:E;
      [| exact I].
    destruct (Hok out dr eq_refl) as [Hdr Hn].
    destruct (normalize_db_peak (scale_matrix m (Fin M)) dr
                (scaled_finite m M HM Hfin) (scaled_signal m M HM Hsig))
      as [b [_ [_ Eo]]].
    rewrite Hn in Eo. injection Eo as ->.
    exists (fun c => clamp_cell dr (ext_sub (db (cdiv c (Fin M))) (Fin b))). split.
    + unfold clamp, shift, to_db, scale_matrix. rewrite !map_map. apply map_ext.
      intros row. rewrite !map_map. reflexivity.
    + intros x1 y1 x2 y2 H. cbn beta. rewrite !cdiv_pos by exact HM.
      apply pixel_mono.
      * destruct Hdr as [-> | [d [-> _]]]; [left; reflexivity | right; eauto].
      * rewrite !scaled_sq by exact HM. unfold Rdiv.
        apply Rmult_le_compat_r; [left; apply Rinv_0_lt_compat; nra | exact H].
Qed.

Lemma normalization_preserves_order_witness :
  match snd (dyn_range_compression 30 20 [[CFin 1 0; CFin 2 0]] (Some 30)) with
  | Ok (out, _) =>
      exists g : cell -> ext, out = map (map g) [[CFin 1 0; CFin 2 0]] /\
        forall x1 y1 x2 y2, x1 * x1 + y1 * y1 <= x2 * x2 + y2 * y2 ->
          ext_ge (g (CFin x2 y2)) (g (CFin x1 y1)) = true
  | Err _ => True
  end.
Proof.
  apply (normalization_preserves_order 30 20 [[CFin 1 0; CFin 2 0]] (Some 30)).
  - repeat constructor; eauto.
  - exists 1, 0. split; [left; reflexivity | lra].
Defined.

(** ** [np.argmin] and the slice plots *)

Lemma argmin_aux_spec (l pre : list R) (i best : nat) (bv : R) :
  i = length pre -> (best < i)%nat -> nth best pre 0 = bv ->
  (forall j, (j < i)%nat -> bv <= nth j pre 0) ->
  (forall j, (j < best)%nat -> bv < nth j pre 0) ->
  let k := argmin_aux l i best bv in
  (k < length (pre ++ l))%nat /\
  (forall j, (j < length (pre ++ l))%nat -> nth k (pre ++ l) 0 <= nth j (pre ++ l) 0) /\
  (forall j, (j < k)%nat -> nth k (pre ++ l) 0 < nth j (pre ++ l) 0).
Proof.
  revert pre i best bv. induction l as [| x r IH]; intros pre i best bv Hi Hb Hbv Hle Hlt.
  - cbn. rewrite app_nil_r. subst i. split; [exact Hb |]. split.
    + intros j Hj. rewrite Hbv. apply Hle. exact Hj.
    + intros j Hj. rewrite Hbv. apply Hlt. exact Hj.
  - cbn [argmin_aux]. replace (pre ++ x :: r) with ((pre ++ [x]) ++ r)
      by (rewrite <- app_assoc; reflexivity).
    assert (Hx : nth i (pre ++ [x]) 0 = x)
      by (rewrite app_nth2 by lia; rewrite Hi, Nat.sub_diag; reflexivity).
    assert (Hpre : forall j, (j < i)%nat -> nth j (pre ++ [x]) 0 = nth j pre 0)
      by (intros j Hj; apply app_nth1; lia).
    destruct (Rlt_dec x bv) as [Hxb | Hxb]; apply IH.
    + rewrite length_app, Hi. cbn. lia.
    + lia.
    + exact Hx.
    + intros j Hj. destruct (Nat.eq_dec j i) as [-> | Hne]; [lra |].
      rewrite Hpre by lia. specialize (Hle j ltac:(lia)). lra.
    + intros j Hj. rewrite Hpre by lia. specialize (Hle j Hj). lra.
    + rewrite length_app, Hi. cbn. lia.
    + lia.
    + rewrite Hpre by lia. exact Hbv.
    + intros j Hj. destruct (Nat.eq_dec j i) as [-> | Hne]; [rewrite Hx; lra |].
      rewrite Hpre by lia. apply Hle. lia.
    + intros j Hj. rewrite Hpre by lia. apply Hlt. exact Hj.
Qed.

(** [np.argmin] returns the first index of a minimum. *)
Lemma np_argmin_spec (l : list R) (k : nat) :
  np_argmin l = Ok k ->
  (k < length l)%nat /\
  (forall j, (j < length l)%nat -> nth k l 0 <= nth j l 0) /\
  (forall j, (j < k)%nat -> nth k l 0 < nth j l 0).
Proof.
  destruct l as [| x r]; cbn [np_argmin]; [discriminate |].
  intros H. injection H as <-.
  apply (argmin_aux_spec r [x] 1 0 x); cbn; try reflexivity; try lia.
  - intros j Hj. destruct j; [lra | lia].
Qed.

Lemma np_argmin_ok (l : list R) : l <> [] -> exists k, np_argmin l = Ok k.
Proof. destruct l; [congruence |]. intros _. cbn. eauto. Qed.

Lemma ncols_rect (m : matrix) (n : nat) :
  Forall (fun row => length row = n) m -> (0 < length m)%nat -> ncols m = n.
Proof.
  intros H Hl. destruct m as [| r rs]; cbn in Hl; [lia |]. inversion H. assumption.
Qed.

Lemma to_db_rows (m : matrix) (n : nat) :
  Forall (fun row => length row = n) m -> Forall (fun row => length row = n) (to_db m).
Proof.
  intros H. unfold to_db. apply Forall_map. eapply Forall_impl; [| exact H].
  intros row Hr. rewrite length_map. exact Hr.
Qed.

Lemma column_db (m : matrix) (k : nat) :
  map (fun row => nth k row (db CNaN)) (to_db m) = map (fun row => db (nth k row CNaN)) m.
Proof.
  unfold to_db. rewrite map_map. apply map_ext. intros row. apply map_nth.
Qed.

(** with [fs > 0], [plot_Doppler_slice] asked for a bistatic range
    [r] in [[0, (n - 1) * c / fs]] plots, without printing, the dB column
    [k] whose distance [k * c / fs] is nearest to [r] (the lowest such [k]
    on a tie), appended to the given figure. *)
Theorem doppler_slice_nearest_bin (m : matrix) (n : nat) (fs r : R)
  (max_Doppler : option R) (fig : option figure) :
  Forall (fun row => length row = n) m -> (0 < length m)%nat -> 0 < fs ->
  0 <= r <= (INR n - 1) * (c_light / fs) ->
  exists k, (k < n)%nat /\
    (forall j, (j < n)%nat ->
       Rabs (INR k * (c_light / fs) - r) <= Rabs (INR j * (c_light / fs) - r)) /\
    (forall j, (j < k)%nat ->
       Rabs (INR k * (c_light / fs) - r) < Rabs (INR j * (c_light / fs) - r)) /\
    plot_Doppler_slice m (PFloat r) (Some fs) max_Doppler fig
    = mk_call m []
        (Ok (Some (fig_or_new fig ++
           [Scatter (match max_Doppler with
                     | None => arange_f (length m)
                     | Some v => linspace (- v) v (length m)
                     end)
                    (map (fun row => db (nth k row CNaN)) m) (Z.of_nat k)]))).
Proof.
  intros Hrows Hm Hfs Hr.
  set (d := c_light / fs) in *.
  assert (Hd : 0 < d) by (apply Rdiv_lt_0_compat; [apply c_light_pos | exact Hfs]).
  assert (Hn : ncols (to_db m) = n) by (rewrite ncols_to_db; apply ncols_rect; assumption).
  assert (Hn1 : (1 <= n)%nat).
  { destruct n; [| lia]. exfalso. rewrite INR_0 in Hr. destruct Hr as [Hr1 Hr2]. assert (H0 : (0 - 1) * d = - d) by ring. fold d in Hr2. lra. }
  set (l := map (fun j => Rabs (INR j * d - r)) (seq 0 n)).
  assert (Hl : length l = n) by (unfold l; rewrite length_map; apply length_seq).
  assert (Hnth : forall j, (j < n)%nat -> nth j l 0 = Rabs (INR j * d - r)).
  { intros j Hj. unfold l. rewrite (nth_map_in _ _ _ _ 0%nat) by (rewrite length_seq; exact Hj).
    rewrite seq_nth by exact Hj. reflexivity. }
  destruct (np_argmin_ok l) as [k Ek]; [intros E; rewrite E in Hl; cbn in Hl; lia |].
  destruct (np_argmin_spec l k Ek) as [Hk [Hmin Hfirst]]. rewrite Hl in Hk, Hmin.
  exists k. split; [exact Hk |]. split; [| split].
  - intros j Hj. rewrite <- (Hnth k Hk), <- (Hnth j Hj). apply Hmin, Hj.
  - intros j Hj. rewrite <- (Hnth k Hk), <- (Hnth j ltac:(lia)). apply Hfirst, Hj.
  - unfold plot_Doppler_slice. cbn [pyval]. fold d. rewrite Hn.
    destruct (Rlt_dec r 0) as [Hlt | _]; [lra |].
    destruct (Req_dec_T fs 0) as [Hz | _]; [lra |].
    destruct (Rgt_dec r ((INR n - 1) * d)) as [Hgt | _]; [lra |].
    fold l. rewrite Ek. unfold doppler_slice_tail. cbn [pyval]. rewrite Hn.
    rewrite <- INR_IZR_INZ.
    destruct (Rgt_dec (INR k) (INR n - 1)) as [Hgt | _].
    { exfalso. assert (INR k + 1 <= INR n) by (rewrite <- S_INR; apply le_INR; lia).
      lra. }
    cbn [format_d bind].
    rewrite (map_m_index (to_db m) n k (db CNaN) (to_db_rows m n Hrows) Hk).
    cbn [bind]. rewrite column_db. unfold nrows, to_db. rewrite length_map.
    reflexivity.
Qed.

Lemma doppler_slice_nearest_bin_witness :
  exists k, (k < 4)%nat /\
    (forall j, (j < 4)%nat ->
       Rabs (INR k * (c_light / 2000000) - 160) <= Rabs (INR j * (c_light / 2000000) - 160)) /\
    (forall j, (j < k)%nat ->
       Rabs (INR k * (c_light / 2000000) - 160) < Rabs (INR j * (c_light / 2000000) - 160)) /\
    plot_Doppler_slice (ones 2 4) (PFloat 160) (Some 2000000) None None
    = mk_call (ones 2 4) []
        (Ok (Some (fig_or_new None ++
           [Scatter (arange_f (length (ones 2 4)))
                    (map (fun row => db (nth k row CNaN)) (ones 2 4)) (Z.of_nat k)]))).
Proof.
  apply (doppler_slice_nearest_bin (ones 2 4) 4 2000000 160 None None (ones_rows 2 4)).
  - rewrite ones_length. lia.
  - lra.
  - unfold c_light. cbn [INR]. split; lra.
Defined.

(** [plot_Doppler_slice] answers a negative bistatic range, or one
    past the last range column (in bins without [fs], in metres
    [(n - 1) * c / fs] with [fs > 0]), by printing one error line and
    returning [None]; it raises nothing and leaves the matrix as it was. *)
Theorem doppler_slice_rejects_out_of_range (m : matrix) (b : pynum)
  (fs max_Doppler : option R) (fig : option figure) :
  (forall f, fs = Some f -> 0 < f) ->
  (pyval b < 0 \/
   (fs = None /\ pyval b > INR (ncols m) - 1) \/
   (exists f, fs = Some f /\ pyval b > (INR (ncols m) - 1) * (c_light / f))) ->
  exists msg, plot_Doppler_slice m b fs max_Doppler fig = mk_call m [msg] (Ok None).
Proof.
  intros Hpos H. unfold plot_Doppler_slice. rewrite ncols_to_db.
  destruct (Rlt_dec (pyval b) 0) as [_ | Hnn]; [eexists; reflexivity |].
  destruct fs as [f |].
  - destruct (Req_dec_T f 0) as [Hz | _];
      [pose proof (Hpos f eq_refl); lra |].
    destruct (Rgt_dec (pyval b) ((INR (ncols m) - 1) * (c_light / f))) as [_ | Hng];
      [eexists; reflexivity |].
    exfalso. destruct H as [H | [[H _] | [f' [E H]]]]; [lra | discriminate |].
    injection E as <-. lra.
  - unfold doppler_slice_tail. rewrite ncols_to_db.
    destruct (Rgt_dec (pyval b) (INR (ncols m) - 1)) as [_ | Hng];
      [eexists; reflexivity |].
    exfalso. destruct H as [H | [[_ H] | [f' [E _]]]]; [lra | lra | discriminate].
Qed.

Lemma doppler_slice_rejects_out_of_range_witness :
  exists msg, plot_Doppler_slice (ones 2 4) (PFloat 7) None None None
              = mk_call (ones 2 4) [msg] (Ok None).
Proof.
  apply (doppler_slice_rejects_out_of_range (ones 2 4) (PFloat 7) None None None).
  - intros f H. discriminate.
  - right. left. split; [reflexivity |]. cbn [pyval ncols ones repeat length INR].
    lra.
Defined.

(** without [fs], [plot_Doppler_slice] given an in-range bin as a
    float (for example [2.0], the documented type of [bistat_range]) raises
    [ValueError]: the trace name is formatted with ["{:d}"]. *)
Theorem doppler_slice_float_bin_raises (m : matrix) (r : R) (max_Doppler : option R)
  (fig : option figure) :
  0 <= r <= INR (ncols m) - 1 ->
  plot_Doppler_slice m (PFloat r) None max_Doppler fig = mk_call m [] (Err ValueError).
Proof.
  intros Hr. unfold plot_Doppler_slice, doppler_slice_tail. cbn [pyval].
  rewrite ncols_to_db.
  destruct (Rlt_dec r 0) as [Hlt | _]; [lra |].
  destruct (Rgt_dec r (INR (ncols m) - 1)) as [Hgt | _]; [lra |].
  reflexivity.
Qed.

Lemma doppler_slice_float_bin_raises_witness :
  plot_Doppler_slice (ones 2 4) (PFloat 2) None None None
  = mk_call (ones 2 4) [] (Err ValueError).
Proof.
  apply (doppler_slice_float_bin_raises (ones 2 4) 2 None None).
  cbn [ncols ones repeat length INR]. lra.
Defined.

(** [plot_range_slice] answers, by printing one error line and
    returning [None] without raising, a Doppler frequency beyond
    [+-max_Doppler] (int or float) when [max_Doppler] is given, and an
    integer Doppler bin outside [[0, rows - 1]] when it is not. *)
Theorem range_slice_rejects_out_of_range (m : matrix) (f : pynum)
  (fs max_Doppler : option R) (fig : option figure) :
  (exists v, max_Doppler = Some v /\ Rabs (pyval f) > v) \/
  (max_Doppler = None /\ exists z, f = PInt z /\ (IZR z > INR (length m) - 1 \/ IZR z < 0)) ->
  exists msg, plot_range_slice m f fs max_Doppler fig = mk_call m [msg] (Ok None).
Proof.
  intros [[v [-> Hv]] | [-> [z [-> Hz]]]]; unfold plot_range_slice, range_slice_draw;
    cbv zeta.
  - destruct (Rgt_dec (Rabs (pyval f)) v) as [_ | Hn]; [eexists; reflexivity | lra].
  - unfold range_slice_tail, range_out_of_range, nrows, to_db. rewrite length_map.
    cbn [pyval format_d].
    destruct (Rgt_dec (IZR z) (INR (length m) - 1)) as [_ | Hg];
      [eexists; reflexivity |].
    destruct (Rlt_dec (IZR z) 0) as [_ | Hl]; [eexists; reflexivity | lra].
Qed.

Lemma range_slice_rejects_out_of_range_witness :
  exists msg, plot_range_slice (ones 2 4) (PFloat (-150)) None (Some 100) None
              = mk_call (ones 2 4) [msg] (Ok None).
Proof.
  apply (range_slice_rejects_out_of_range (ones 2 4) (PFloat (-150)) None (Some 100) None).
  left. exists 100. split; [reflexivity |]. cbn [pyval].
  rewrite Rabs_left by lra. lra.
Defined.
